(** * Container options of termdash: a shallow embedding of container/options.go

  The development follows the Go file top to bottom.  Go values are
  modelled as follows.

  - [int] is [Z]; the file only compares and stores integers, it never
    does arithmetic on them, so no wrap-around can occur.
  - A Go map is a stdpp [gmap]; reading a missing key of a
    [map[K]bool] yields [false], written [default false (m !! k)].
  - [*globalOptions] is a location into an explicit store, because
    every container of a tree aliases the same record.
  - [(T, error)] results are pairs with an [option error]; an option's
    [set] returns the container and the store it leaves behind together
    with the error, since Go mutates in place and keeps the mutation
    when it reports a failure.
  - The value types of the packages align, cell, keyboard, linestyle and
    widgetapi are not part of the file; they are parameters, collected in
    the class [Externals]. *)

From stdpp Require Import gmap strings list.

Open Scope Z_scope.

(** ** image.Rectangle (Go standard library) *)

Module image.
Record Point := mkPoint { X : Z; Y : Z }.
Record Rectangle := mkRectangle { Min : Point; Max : Point }.
End image.

(** ** margin *)

Module margin.

(** margin stores the configured margin for the container. *)
Record t := mk {
  topCells : Z;
  topPerc : Z;
  rightCells : Z;
  rightPerc : Z;
  bottomCells : Z;
  bottomPerc : Z;
  leftCells : Z;
  leftPerc : Z;
}.

(** The zero value of the struct. *)
Definition zero : t := mk 0 0 0 0 0 0 0 0.

Definition set_topCells (v : Z) (p : t) : t :=
  mk v (topPerc p) (rightCells p) (rightPerc p) (bottomCells p) (bottomPerc p) (leftCells p) (leftPerc p).
Definition set_topPerc (v : Z) (p : t) : t :=
  mk (topCells p) v (rightCells p) (rightPerc p) (bottomCells p) (bottomPerc p) (leftCells p) (leftPerc p).
Definition set_rightCells (v : Z) (p : t) : t :=
  mk (topCells p) (topPerc p) v (rightPerc p) (bottomCells p) (bottomPerc p) (leftCells p) (leftPerc p).
Definition set_rightPerc (v : Z) (p : t) : t :=
  mk (topCells p) (topPerc p) (rightCells p) v (bottomCells p) (bottomPerc p) (leftCells p) (leftPerc p).
Definition set_bottomCells (v : Z) (p : t) : t :=
  mk (topCells p) (topPerc p) (rightCells p) (rightPerc p) v (bottomPerc p) (leftCells p) (leftPerc p).
Definition set_bottomPerc (v : Z) (p : t) : t :=
  mk (topCells p) (topPerc p) (rightCells p) (rightPerc p) (bottomCells p) v (leftCells p) (leftPerc p).
Definition set_leftCells (v : Z) (p : t) : t :=
  mk (topCells p) (topPerc p) (rightCells p) (rightPerc p) (bottomCells p) (bottomPerc p) v (leftPerc p).
Definition set_leftPerc (v : Z) (p : t) : t :=
  mk (topCells p) (topPerc p) (rightCells p) (rightPerc p) (bottomCells p) (bottomPerc p) (leftCells p) v.

Section apply.
(** area.Shrink and area.ShrinkPercent live in the package private/area,
    which is not part of the file: they are parameters here, together
    with the type of the errors they report. *)
Context {E : Type}.
Variable Shrink : image.Rectangle → Z → Z → Z → Z → image.Rectangle * option E.
Variable ShrinkPercent : image.Rectangle → Z → Z → Z → Z → image.Rectangle * option E.

(** apply applies the configured margin to the area. *)
Definition apply (p : t) (ar : image.Rectangle) : image.Rectangle * option E :=
  if negb (topCells p =? 0) || negb (rightCells p =? 0)
     || negb (bottomCells p =? 0) || negb (leftCells p =? 0)
  then Shrink ar (topCells p) (rightCells p) (bottomCells p) (leftCells p)
  else if negb (topPerc p =? 0) || negb (rightPerc p =? 0)
          || negb (bottomPerc p =? 0) || negb (leftPerc p =? 0)
  then ShrinkPercent ar (topPerc p) (rightPerc p) (bottomPerc p) (leftPerc p)
  else (ar, None).
End apply.

End margin.

(** ** padding *)

Module padding.

(** padding stores the configured padding for the container. *)
Record t := mk {
  topCells : Z;
  topPerc : Z;
  rightCells : Z;
  rightPerc : Z;
  bottomCells : Z;
  bottomPerc : Z;
  leftCells : Z;
  leftPerc : Z;
}.

Definition zero : t := mk 0 0 0 0 0 0 0 0.

Definition set_topCells (v : Z) (p : t) : t :=
  mk v (topPerc p) (rightCells p) (rightPerc p) (bottomCells p) (bottomPerc p) (leftCells p) (leftPerc p).
Definition set_topPerc (v : Z) (p : t) : t :=
  mk (topCells p) v (rightCells p) (rightPerc p) (bottomCells p) (bottomPerc p) (leftCells p) (leftPerc p).
Definition set_rightCells (v : Z) (p : t) : t :=
  mk (topCells p) (topPerc p) v (rightPerc p) (bottomCells p) (bottomPerc p) (leftCells p) (leftPerc p).
Definition set_rightPerc (v : Z) (p : t) : t :=
  mk (topCells p) (topPerc p) (rightCells p) v (bottomCells p) (bottomPerc p) (leftCells p) (leftPerc p).
Definition set_bottomCells (v : Z) (p : t) : t :=
  mk (topCells p) (topPerc p) (rightCells p) (rightPerc p) v (bottomPerc p) (leftCells p) (leftPerc p).
Definition set_bottomPerc (v : Z) (p : t) : t :=
  mk (topCells p) (topPerc p) (rightCells p) (rightPerc p) (bottomCells p) v (leftCells p) (leftPerc p).
Definition set_leftCells (v : Z) (p : t) : t :=
  mk (topCells p) (topPerc p) (rightCells p) (rightPerc p) (bottomCells p) (bottomPerc p) v (leftPerc p).
Definition set_leftPerc (v : Z) (p : t) : t :=
  mk (topCells p) (topPerc p) (rightCells p) (rightPerc p) (bottomCells p) (bottomPerc p) (leftCells p) v.

Section apply.
Context {E : Type}.
Variable Shrink : image.Rectangle → Z → Z → Z → Z → image.Rectangle * option E.
Variable ShrinkPercent : image.Rectangle → Z → Z → Z → Z → image.Rectangle * option E.

(** apply applies the configured padding to the area. *)
Definition apply (p : t) (ar : image.Rectangle) : image.Rectangle * option E :=
  if negb (topCells p =? 0) || negb (rightCells p =? 0)
     || negb (bottomCells p =? 0) || negb (leftCells p =? 0)
  then Shrink ar (topCells p) (rightCells p) (bottomCells p) (leftCells p)
  else if negb (topPerc p =? 0) || negb (rightPerc p =? 0)
          || negb (bottomPerc p =? 0) || negb (leftPerc p =? 0)
  then ShrinkPercent ar (topPerc p) (rightPerc p) (bottomPerc p) (leftPerc p)
  else (ar, None).
End apply.

End padding.

(** ** Types of the packages the file imports

    The file stores, compares and copies these values and never looks
    inside them.  For each type the class lists the constants the file
    names and the zero value Go gives an unset field. *)

Class Externals := {
  (** widgetapi.Widget, an interface; [None] below is the nil interface. *)
  Widget : Type;
  (** keyboard.Key, used as a map key. *)
  Key : Type;
  Key_eq_dec :: EqDecision Key;
  Key_countable :: Countable Key;
  (** cell.Color *)
  Color : Type;
  ColorZero : Color;
  ColorYellow : Color;
  (** align.Horizontal *)
  Horizontal : Type;
  HorizontalZero : Horizontal;
  HorizontalLeft : Horizontal;
  HorizontalCenter : Horizontal;
  HorizontalRight : Horizontal;
  (** align.Vertical *)
  Vertical : Type;
  VerticalMiddle : Vertical;
  (** linestyle.LineStyle *)
  LineStyle : Type;
  LineStyleZero : LineStyle;
}.

(** FocusGroup represents a group of containers that can have the keyboard
    focus moved between them sharing the same keyboard key. *)
Abbreviation FocusGroup := Z.

(** focusGroups maps focus group numbers that have the same key assigned. *)
Abbreviation focusGroups := (gmap Z bool).

(** ** inherited *)

Module inherited.
(** inherited contains options that are inherited by child containers.
    The two title colors are [*cell.Color]; the file only ever replaces
    the pointer by one to a fresh copy, never writes through it, so a
    pointer is modelled by the value it points to. *)
Record t `{Externals} := mk {
  borderColor : Color;
  focusedColor : Color;
  titleColor : option Color;
  titleFocusedColor : option Color;
}.
Arguments mk {_} _ _ _ _.
End inherited.

(** ** The store of global options

    [options.global] is a pointer.  A location that the store does not
    bind plays the role of Go's nil pointer. *)

Abbreviation loc := nat.

Section container.
Context `{Externals}.

(** globalOptions are options that can only have a single value across the
    entire tree of containers.  [keyFocusNext] and [keyFocusPrevious] are
    [*keyboard.Key], set to the address of a fresh copy of the key. *)
Record globalOptions := mkGlobalOptions {
  keyFocusNext : option Key;
  keyFocusPrevious : option Key;
  keyFocusGroupsNext : gmap Key (gmap Z bool);
  keyFocusGroupsPrevious : gmap Key (gmap Z bool);
}.

Definition with_keyFocusNext (v : option Key) (g : globalOptions) : globalOptions :=
  mkGlobalOptions v (keyFocusPrevious g) (keyFocusGroupsNext g) (keyFocusGroupsPrevious g).
Definition with_keyFocusPrevious (v : option Key) (g : globalOptions) : globalOptions :=
  mkGlobalOptions (keyFocusNext g) v (keyFocusGroupsNext g) (keyFocusGroupsPrevious g).
Definition with_keyFocusGroupsNext (v : gmap Key (gmap Z bool)) (g : globalOptions) : globalOptions :=
  mkGlobalOptions (keyFocusNext g) (keyFocusPrevious g) v (keyFocusGroupsPrevious g).
Definition with_keyFocusGroupsPrevious (v : gmap Key (gmap Z bool)) (g : globalOptions) : globalOptions :=
  mkGlobalOptions (keyFocusNext g) (keyFocusPrevious g) (keyFocusGroupsNext g) v.

Abbreviation store := (gmap nat globalOptions).

(** splitType identifies how a container is split; splitTypeVertical is
    [iota] zero, hence the zero value. *)
Inductive splitType := splitTypeVertical | splitTypeHorizontal.

(** DefaultSplitReversed is the default value for the SplitReversed option. *)
Definition DefaultSplitReversed : bool := false.
(** DefaultSplitPercent is the default value for the SplitPercent option. *)
Definition DefaultSplitPercent : Z := 50.
(** DefaultSplitFixed is the default value for the SplitFixed option. *)
Definition DefaultSplitFixed : Z := -1.

(** options stores the options provided to the container. *)
Record options := mkOptions {
  id : string;
  global : loc;
  inherited : inherited.t;
  split : splitType;
  splitReversed : bool;
  splitPercent : Z;
  splitFixed : Z;
  widget : option Widget;
  hAlign : Horizontal;
  vAlign : Vertical;
  border : LineStyle;
  borderTitle : string;
  borderTitleHAlign : Horizontal;
  padding : padding.t;
  margin : margin.t;
  keyFocusSkip : bool;
  keyFocusGroups : list FocusGroup;
}.

(** Assignment to one field of the struct. *)
Definition with_id (v : string) (o : options) : options :=
  mkOptions v (global o) (inherited o) (split o) (splitReversed o) (splitPercent o)
    (splitFixed o) (widget o) (hAlign o) (vAlign o) (border o) (borderTitle o)
    (borderTitleHAlign o) (padding o) (margin o) (keyFocusSkip o) (keyFocusGroups o).
Definition with_global (v : loc) (o : options) : options :=
  mkOptions (id o) v (inherited o) (split o) (splitReversed o) (splitPercent o) (splitFixed o)
    (widget o) (hAlign o) (vAlign o) (border o) (borderTitle o) (borderTitleHAlign o)
    (padding o) (margin o) (keyFocusSkip o) (keyFocusGroups o).
Definition with_inherited (v : inherited.t) (o : options) : options :=
  mkOptions (id o) (global o) v (split o) (splitReversed o) (splitPercent o) (splitFixed o)
    (widget o) (hAlign o) (vAlign o) (border o) (borderTitle o) (borderTitleHAlign o)
    (padding o) (margin o) (keyFocusSkip o) (keyFocusGroups o).
Definition with_split (v : splitType) (o : options) : options :=
  mkOptions (id o) (global o) (inherited o) v (splitReversed o) (splitPercent o) (splitFixed o)
    (widget o) (hAlign o) (vAlign o) (border o) (borderTitle o) (borderTitleHAlign o)
    (padding o) (margin o) (keyFocusSkip o) (keyFocusGroups o).
Definition with_splitReversed (v : bool) (o : options) : options :=
  mkOptions (id o) (global o) (inherited o) (split o) v (splitPercent o) (splitFixed o)
    (widget o) (hAlign o) (vAlign o) (border o) (borderTitle o) (borderTitleHAlign o)
    (padding o) (margin o) (keyFocusSkip o) (keyFocusGroups o).
Definition with_splitPercent (v : Z) (o : options) : options :=
  mkOptions (id o) (global o) (inherited o) (split o) (splitReversed o) v (splitFixed o)
    (widget o) (hAlign o) (vAlign o) (border o) (borderTitle o) (borderTitleHAlign o)
    (padding o) (margin o) (keyFocusSkip o) (keyFocusGroups o).
Definition with_splitFixed (v : Z) (o : options) : options :=
  mkOptions (id o) (global o) (inherited o) (split o) (splitReversed o) (splitPercent o) v
    (widget o) (hAlign o) (vAlign o) (border o) (borderTitle o) (borderTitleHAlign o)
    (padding o) (margin o) (keyFocusSkip o) (keyFocusGroups o).
Definition with_widget (v : option Widget) (o : options) : options :=
  mkOptions (id o) (global o) (inherited o) (split o) (splitReversed o) (splitPercent o)
    (splitFixed o) v (hAlign o) (vAlign o) (border o) (borderTitle o) (borderTitleHAlign o)
    (padding o) (margin o) (keyFocusSkip o) (keyFocusGroups o).
Definition with_hAlign (v : Horizontal) (o : options) : options :=
  mkOptions (id o) (global o) (inherited o) (split o) (splitReversed o) (splitPercent o)
    (splitFixed o) (widget o) v (vAlign o) (border o) (borderTitle o) (borderTitleHAlign o)
    (padding o) (margin o) (keyFocusSkip o) (keyFocusGroups o).
Definition with_vAlign (v : Vertical) (o : options) : options :=
  mkOptions (id o) (global o) (inherited o) (split o) (splitReversed o) (splitPercent o)
    (splitFixed o) (widget o) (hAlign o) v (border o) (borderTitle o) (borderTitleHAlign o)
    (padding o) (margin o) (keyFocusSkip o) (keyFocusGroups o).
Definition with_border (v : LineStyle) (o : options) : options :=
  mkOptions (id o) (global o) (inherited o) (split o) (splitReversed o) (splitPercent o)
    (splitFixed o) (widget o) (hAlign o) (vAlign o) v (borderTitle o) (borderTitleHAlign o)
    (padding o) (margin o) (keyFocusSkip o) (keyFocusGroups o).
Definition with_borderTitle (v : string) (o : options) : options :=
  mkOptions (id o) (global o) (inherited o) (split o) (splitReversed o) (splitPercent o)
    (splitFixed o) (widget o) (hAlign o) (vAlign o) (border o) v (borderTitleHAlign o)
    (padding o) (margin o) (keyFocusSkip o) (keyFocusGroups o).
Definition with_borderTitleHAlign (v : Horizontal) (o : options) : options :=
  mkOptions (id o) (global o) (inherited o) (split o) (splitReversed o) (splitPercent o)
    (splitFixed o) (widget o) (hAlign o) (vAlign o) (border o) (borderTitle o) v (padding o)
    (margin o) (keyFocusSkip o) (keyFocusGroups o).
Definition with_padding (v : padding.t) (o : options) : options :=
  mkOptions (id o) (global o) (inherited o) (split o) (splitReversed o) (splitPercent o)
    (splitFixed o) (widget o) (hAlign o) (vAlign o) (border o) (borderTitle o)
    (borderTitleHAlign o) v (margin o) (keyFocusSkip o) (keyFocusGroups o).
Definition with_margin (v : margin.t) (o : options) : options :=
  mkOptions (id o) (global o) (inherited o) (split o) (splitReversed o) (splitPercent o)
    (splitFixed o) (widget o) (hAlign o) (vAlign o) (border o) (borderTitle o)
    (borderTitleHAlign o) (padding o) v (keyFocusSkip o) (keyFocusGroups o).
Definition with_keyFocusSkip (v : bool) (o : options) : options :=
  mkOptions (id o) (global o) (inherited o) (split o) (splitReversed o) (splitPercent o)
    (splitFixed o) (widget o) (hAlign o) (vAlign o) (border o) (borderTitle o)
    (borderTitleHAlign o) (padding o) (margin o) v (keyFocusGroups o).
Definition with_keyFocusGroups (v : list FocusGroup) (o : options) : options :=
  mkOptions (id o) (global o) (inherited o) (split o) (splitReversed o) (splitPercent o)
    (splitFixed o) (widget o) (hAlign o) (vAlign o) (border o) (borderTitle o)
    (borderTitleHAlign o) (padding o) (margin o) (keyFocusSkip o) v.

(** Modelled from the spec: the Container struct is declared in
    container.go, which is not part of the file.  The spec (section 3) gives
    a node of a strictly binary tree with two owned children [first] and
    [second] and a configuration record; these are the three fields the
    file reads and writes ([c.first], [c.second], [c.opts]).  A nil child
    pointer is [None]. *)
#[warnings="-register-all"]
Inductive Container := mkContainer {
  first : option Container;
  second : option Container;
  opts : options;
}.

Definition with_first (v : option Container) (c : Container) : Container :=
  mkContainer v (second c) (opts c).
Definition with_second (v : option Container) (c : Container) : Container :=
  mkContainer (first c) v (opts c).
Definition with_opts (v : options) (c : Container) : Container :=
  mkContainer (first c) (second c) v.


(** ** Errors

    The file builds its errors with fmt.Errorf.  An error value of the model
    stands for the formatted message: one constructor per format string,
    carrying the arguments that are printed.  All messages are non-empty.
    [panicNilDereference] is not a Go error: it is the run-time panic of
    dereferencing a nil [*globalOptions], which likewise ends the call. *)
Inductive error :=
  (** invalid split percentage %d, must be in range %d < p < %d *)
  | errInvalidSplitPercent (p : Z)
  (** invalid fixed value %d, must be in range %d <= cells *)
  | errInvalidSplitFixed (cells : Z)
  (** the ID cannot be an empty string *)
  | errEmptyID
  (** duplicate container ID %q *)
  | errDuplicateID (id : string)
  (** only one of splitFixed `%v` and splitPercent `%v` is allowed to be set per container *)
  | errBothSplits (fixed : Z) (percent : Z)
  (** invalid <option>(%d), must be in range %d <= value *)
  | errInvalidCells (option : string) (cells : Z)
  (** invalid <option>(%d), must be in range %d <= value <= %d *)
  | errInvalidPercent (option : string) (perc : Z)
  (** cannot specify both <option>(%d) and <other>(%d) *)
  | errBoth (option : string) (value : Z) (other : string) (otherValue : Z)
  (** invalid KeyFocusGroups %d, must be 0 <= group *)
  | errInvalidKeyFocusGroups (g : Z)
  (** invalid group %d in KeyFocusGroupsNext for key %q, must be 0 <= group
      (KeyFocusGroupsPrevious prints the same text) *)
  | errInvalidGroupForKey (g : Z) (key : Key)
  (** key %q is already assigned as a KeyFocusGroupsPrevious for focus groups %v *)
  | errKeyAssignedPrevious (key : Key) (g : gmap Z bool)
  (** key %q is already assigned as a KeyFocusGroupsNext for focus groups %v *)
  | errKeyAssignedNext (key : Key) (g : gmap Z bool)
  | panicNilDereference.

(** What a call that mutates a container leaves behind: the container, the
    store, and the error it returns ([None] is Go's nil). *)
Abbreviation outcome := (Container * gmap nat globalOptions * option error)%type.

(** ** applyOptions *)

Section applyOptions.
(** Option is an interface with the single method [set]; applyOptions only
    calls that method, so it is defined for any implementation. *)
Context {O : Type}.
Variable set : O → Container → store → outcome.

(** applyOptions applies the options to the container and validates them. *)
Fixpoint applyOptions (c : Container) (opts : list O) (σ : store) {struct opts} : outcome :=
  match opts with
  | [] => (c, σ, None)
  | opt :: rest =>
      match set opt c σ with
      | (c', σ', Some err) => (c', σ', Some err)
      | (c', σ', None) => applyOptions c' rest σ'
      end
  end.
End applyOptions.

(** ** validateIds, validateSplits *)

(** ensure all the container identifiers are either empty or unique.
    [seen] is the Go map the caller passes in; the updated map is returned. *)
Definition validateIds (c : Container) (seen : gmap string bool) : gmap string bool * option error :=
  if String.eqb (id (opts c)) "" then (seen, None)
  else if default false (seen !! id (opts c)) then (seen, Some (errDuplicateID (id (opts c))))
  else (<[id (opts c) := true]> seen, None).

(** ensure all the container only have one split modifier. *)
Definition validateSplits (c : Container) : option error :=
  if (DefaultSplitFixed <? splitFixed (opts c)) && negb (splitPercent (opts c) =? DefaultSplitPercent)
  then Some (errBothSplits (splitFixed (opts c)) (splitPercent (opts c)))
  else None.

(** Modelled from the spec: preOrder is defined in traversal.go, which is not
    part of the file.  The spec (section 4.2) has the validator walk every
    container once in pre-order, parent before children and [first] before
    [second], and lets the first failure win when the walker stops early;
    this is the walker that stops at the first failure and records it in
    [errStr].  [errStr] is a Go string; since no error message is empty,
    the empty string is [None] and a recorded message is [Some] of its
    error.  The visitor is a closure over mutable state of type [S], which
    is threaded through. *)
Fixpoint preOrder {S : Type} (c : Container) (errStr : option error)
    (visit : Container → S → S * option error) (s : S) {struct c} : S * option error :=
  match errStr with
  | Some _ => (s, errStr)
  | None =>
      match visit c s with
      | (s', Some err) => (s', Some err)
      | (s', None) =>
          let '(s1, e1) :=
            match first c with
            | Some f => preOrder f None visit s'
            | None => (s', None)
            end in
          match second c with
          | Some sd => preOrder sd e1 visit s1
          | None => (s1, e1)
          end
      end
  end.

(** validateOptions validates options set in the container tree. *)
Definition validateOptions (c : Container) : option error :=
  let '(_, errStr) :=
    preOrder c None
      (λ c seenID,
         match validateIds c seenID with
         | (seenID', Some err) => (seenID', Some err)
         | (seenID', None) => (seenID', validateSplits c)
         end)
      (∅ : gmap string bool) in
  errStr.

(** ** focusGroups.firstMatching *)

(** firstMatching examines the focus groups the container is assigned to and
    returns the first matching focus group that is also present in this
    instance. The bool return value indicates if match was found. *)
Fixpoint firstMatching (fg : gmap Z bool) (contGroups : list FocusGroup) : bool * FocusGroup :=
  match contGroups with
  | [] => (false, 0)
  | cg :: rest => if default false (fg !! cg) then (true, cg) else firstMatching fg rest
  end.

(** ** newOptions *)

(** newOptions returns a new options instance with the default values.
    Parent are the inherited options from the parent container or nil if these
    options are for a container with no parent (the root).
    The function always allocates a globalOptions record, and then drops
    the pointer to it when there is a parent. *)
Definition newOptions (parent : option options) (σ : store) : options * store :=
  let l := fresh (dom σ) in
  let σ' := <[l := mkGlobalOptions None None ∅ ∅]> σ in
  let opts :=
    mkOptions "" l (inherited.mk ColorZero ColorYellow None None)
      splitTypeVertical DefaultSplitReversed DefaultSplitPercent DefaultSplitFixed
      None HorizontalCenter VerticalMiddle LineStyleZero "" HorizontalZero
      padding.zero margin.zero false [] in
  match parent with
  | Some p => (with_inherited (inherited p) (with_global (global p) opts), σ')
  | None => (opts, σ')
  end.


(** ** Split options *)

(** SplitOption is used when splitting containers.  The four constructors
    are the four functions of the file that return a SplitOption. *)
Inductive SplitOption :=
  | SplitPercent (p : Z)
  | SplitPercentFromEnd (p : Z)
  | SplitFixed (cells : Z)
  | SplitFixedFromEnd (cells : Z).

(** setSplit implements SplitOption.setSplit: the closure each of the four
    functions returns, applied to [*options]. *)
Definition setSplit (so : SplitOption) (opts : options) : options * option error :=
  match so with
  | SplitPercent p =>
      if (p <=? 0) || (100 <=? p) then (opts, Some (errInvalidSplitPercent p))
      else (with_splitPercent p opts, None)
  | SplitPercentFromEnd p =>
      if (p <=? 0) || (100 <=? p) then (opts, Some (errInvalidSplitPercent p))
      else (with_splitPercent p (with_splitReversed true opts), None)
  | SplitFixed cells =>
      if cells <? 0 then (opts, Some (errInvalidSplitFixed cells))
      else (with_splitFixed cells opts, None)
  | SplitFixedFromEnd cells =>
      if cells <? 0 then (opts, Some (errInvalidSplitFixed cells))
      else (with_splitReversed true (with_splitFixed cells opts), None)
  end.

(** The loop [for _, opt := range opts] of SplitVertical and
    SplitHorizontal, which returns at the first error. *)
Fixpoint setSplits (sopts : list SplitOption) (opts : options) : options * option error :=
  match sopts with
  | [] => (opts, None)
  | opt :: rest =>
      match setSplit opt opts with
      | (opts', Some err) => (opts', Some err)
      | (opts', None) => setSplits rest opts'
      end
  end.

(** ** Options

    Option is an interface whose only method, [set], is unexported, so the
    values of the type are exactly the closures this package builds.
    There is one constructor per function of the file that returns an
    Option, with the function's arguments, and [set] below runs the body of
    its closure.  LeftOption, RightOption, TopOption and BottomOption wrap
    a list of options ([Left(opts...)] and so on, read back by [lOpts]);
    the constructors take the list itself.  Focused is left out: all it
    does is call the focus tracker, which belongs to another file. *)
#[warnings="-register-all"]
Inductive Option :=
  | SplitVertical (l r : list Option) (sopts : list SplitOption)
  | SplitHorizontal (t b : list Option) (sopts : list SplitOption)
  | ID (ident : string)
  | Clear
  | PlaceWidget (w : option Widget)
  | MarginTop (cells : Z)
  | MarginRight (cells : Z)
  | MarginBottom (cells : Z)
  | MarginLeft (cells : Z)
  | MarginTopPercent (perc : Z)
  | MarginRightPercent (perc : Z)
  | MarginBottomPercent (perc : Z)
  | MarginLeftPercent (perc : Z)
  | PaddingTop (cells : Z)
  | PaddingRight (cells : Z)
  | PaddingBottom (cells : Z)
  | PaddingLeft (cells : Z)
  | PaddingTopPercent (perc : Z)
  | PaddingRightPercent (perc : Z)
  | PaddingBottomPercent (perc : Z)
  | PaddingLeftPercent (perc : Z)
  | AlignHorizontal (h : Horizontal)
  | AlignVertical (v : Vertical)
  | Border (ls : LineStyle)
  | BorderTitle (title : string)
  | BorderTitleAlignLeft
  | BorderTitleAlignCenter
  | BorderTitleAlignRight
  | BorderColor (color : Color)
  | FocusedColor (color : Color)
  | TitleColor (color : Color)
  | TitleFocusedColor (color : Color)
  | KeyFocusNext (key : Key)
  | KeyFocusPrevious (key : Key)
  | KeyFocusSkip
  | KeyFocusGroups (groups : list FocusGroup)
  | KeyFocusGroupsNext (key : Key) (groups : list FocusGroup)
  | KeyFocusGroupsPrevious (key : Key) (groups : list FocusGroup).

Section create.
Context {O : Type}.
Variable set : O → Container → store → outcome.

(** Modelled from the spec: createFirst and createSecond are methods of
    Container defined in container.go, which is not part of the file.  By
    the spec (section 4.1) a split creates two new child containers, each
    starting from the parent's current inherited scope and sharing the
    parent's global scope, and applies the caller's list of mutations to
    the child; a failing mutation stops the application and is propagated,
    and what was applied up to that point is retained.  So the child is
    built from [newOptions] of the parent's options, it becomes the
    parent's [first] (or [second]), and the outcome of applying the list to
    it is the outcome of the call. *)
Definition createFirst (c : Container) (os : list O) (σ : store) : outcome :=
  let '(o, σ1) := newOptions (Some (opts c)) σ in
  let '(child, σ2, err) := applyOptions set (mkContainer None None o) os σ1 in
  (with_first (Some child) c, σ2, err).

Definition createSecond (c : Container) (os : list O) (σ : store) : outcome :=
  let '(o, σ1) := newOptions (Some (opts c)) σ in
  let '(child, σ2, err) := applyOptions set (mkContainer None None o) os σ1 in
  (with_second (Some child) c, σ2, err).
End create.

(** The loop of KeyFocusGroups, appending to [c.opts.keyFocusGroups]. *)
Fixpoint appendKeyFocusGroups (groups : list FocusGroup) (cur : list FocusGroup)
    : list FocusGroup * option error :=
  match groups with
  | [] => (cur, None)
  | g :: rest =>
      if g <? 0 then (cur, Some (errInvalidKeyFocusGroups g))
      else appendKeyFocusGroups rest (cur ++ [g])
  end.

(** The loop of KeyFocusGroupsNext; [l] is [c.opts.global]. *)
Fixpoint keyFocusGroupsNextLoop (l : loc) (key : Key) (groups : list FocusGroup) (σ : store)
    : store * option error :=
  match groups with
  | [] => (σ, None)
  | g :: rest =>
      if g <? 0 then (σ, Some (errInvalidGroupForKey g key))
      else
        match σ !! l with
        | None => (σ, Some panicNilDereference)
        | Some gl =>
            match keyFocusGroupsPrevious gl !! key with
            | Some g' => (σ, Some (errKeyAssignedPrevious key g'))
            | None =>
                let fg := default ∅ (keyFocusGroupsNext gl !! key) in
                let next := <[key := <[g := true]> fg]> (keyFocusGroupsNext gl) in
                keyFocusGroupsNextLoop l key rest (<[l := with_keyFocusGroupsNext next gl]> σ)
            end
        end
  end.

(** The loop of KeyFocusGroupsPrevious. *)
Fixpoint keyFocusGroupsPreviousLoop (l : loc) (key : Key) (groups : list FocusGroup) (σ : store)
    : store * option error :=
  match groups with
  | [] => (σ, None)
  | g :: rest =>
      if g <? 0 then (σ, Some (errInvalidGroupForKey g key))
      else
        match σ !! l with
        | None => (σ, Some panicNilDereference)
        | Some gl =>
            match keyFocusGroupsNext gl !! key with
            | Some g' => (σ, Some (errKeyAssignedNext key g'))
            | None =>
                let fg := default ∅ (keyFocusGroupsPrevious gl !! key) in
                let prev := <[key := <[g := true]> fg]> (keyFocusGroupsPrevious gl) in
                keyFocusGroupsPreviousLoop l key rest (<[l := with_keyFocusGroupsPrevious prev gl]> σ)
            end
        end
  end.

(** A write through [c.opts.global]. *)
Definition updateGlobal (f : globalOptions → globalOptions) (c : Container) (σ : store) : outcome :=
  match σ !! global (opts c) with
  | None => (c, σ, Some panicNilDereference)
  | Some gl => (c, <[global (opts c) := f gl]> σ, None)
  end.

(** set implements Option.set: it runs the closure of the option on the
    container. *)
Fixpoint set (o : Option) (c : Container) (σ : store) {struct o} : outcome :=
  match o with
  | SplitVertical l r sopts =>
      let c := with_opts (with_widget None (with_split splitTypeVertical (opts c))) c in
      match setSplits sopts (opts c) with
      | (opts', Some err) => (with_opts opts' c, σ, Some err)
      | (opts', None) =>
          match createFirst set (with_opts opts' c) l σ with
          | (c', σ', Some err) => (c', σ', Some err)
          | (c', σ', None) => createSecond set c' r σ'
          end
      end
  | SplitHorizontal t b sopts =>
      let c := with_opts (with_widget None (with_split splitTypeHorizontal (opts c))) c in
      match setSplits sopts (opts c) with
      | (opts', Some err) => (with_opts opts' c, σ, Some err)
      | (opts', None) =>
          match createFirst set (with_opts opts' c) t σ with
          | (c', σ', Some err) => (c', σ', Some err)
          | (c', σ', None) => createSecond set c' b σ'
          end
      end
  | ID ident =>
      if String.eqb ident "" then (c, σ, Some errEmptyID)
      else (with_opts (with_id ident (opts c)) c, σ, None)
  | Clear =>
      (with_second None (with_first None (with_opts (with_widget None (opts c)) c)), σ, None)
  | PlaceWidget w =>
      (with_second None (with_first None (with_opts (with_widget w (opts c)) c)), σ, None)
  | MarginTop cells =>
      if cells <? 0 then (c, σ, Some (errInvalidCells "MarginTop" cells))
      else if 0 <? margin.topPerc (margin (opts c))
      then (c, σ, Some (errBoth "MarginTop" cells "MarginTopPercent" (margin.topPerc (margin (opts c)))))
      else (with_opts (with_margin (margin.set_topCells cells (margin (opts c))) (opts c)) c, σ, None)
  | MarginRight cells =>
      if cells <? 0 then (c, σ, Some (errInvalidCells "MarginRight" cells))
      else if 0 <? margin.rightPerc (margin (opts c))
      then (c, σ, Some (errBoth "MarginRight" cells "MarginRightPercent" (margin.rightPerc (margin (opts c)))))
      else (with_opts (with_margin (margin.set_rightCells cells (margin (opts c))) (opts c)) c, σ, None)
  | MarginBottom cells =>
      if cells <? 0 then (c, σ, Some (errInvalidCells "MarginBottom" cells))
      else if 0 <? margin.bottomPerc (margin (opts c))
      then (c, σ, Some (errBoth "MarginBottom" cells "MarginBottomPercent" (margin.bottomPerc (margin (opts c)))))
      else (with_opts (with_margin (margin.set_bottomCells cells (margin (opts c))) (opts c)) c, σ, None)
  | MarginLeft cells =>
      if cells <? 0 then (c, σ, Some (errInvalidCells "MarginLeft" cells))
      else if 0 <? margin.leftPerc (margin (opts c))
      then (c, σ, Some (errBoth "MarginLeft" cells "MarginLeftPercent" (margin.leftPerc (margin (opts c)))))
      else (with_opts (with_margin (margin.set_leftCells cells (margin (opts c))) (opts c)) c, σ, None)
  | MarginTopPercent perc =>
      if (perc <? 0) || (100 <? perc) then (c, σ, Some (errInvalidPercent "MarginTopPercent" perc))
      else if 0 <? margin.topCells (margin (opts c))
      then (c, σ, Some (errBoth "MarginTopPercent" perc "MarginTop" (margin.topCells (margin (opts c)))))
      else (with_opts (with_margin (margin.set_topPerc perc (margin (opts c))) (opts c)) c, σ, None)
  | MarginRightPercent perc =>
      if (perc <? 0) || (100 <? perc) then (c, σ, Some (errInvalidPercent "MarginRightPercent" perc))
      else if 0 <? margin.rightCells (margin (opts c))
      then (c, σ, Some (errBoth "MarginRightPercent" perc "MarginRight" (margin.rightCells (margin (opts c)))))
      else (with_opts (with_margin (margin.set_rightPerc perc (margin (opts c))) (opts c)) c, σ, None)
  | MarginBottomPercent perc =>
      if (perc <? 0) || (100 <? perc) then (c, σ, Some (errInvalidPercent "MarginBottomPercent" perc))
      else if 0 <? margin.bottomCells (margin (opts c))
      then (c, σ, Some (errBoth "MarginBottomPercent" perc "MarginBottom" (margin.bottomCells (margin (opts c)))))
      else (with_opts (with_margin (margin.set_bottomPerc perc (margin (opts c))) (opts c)) c, σ, None)
  | MarginLeftPercent perc =>
      if (perc <? 0) || (100 <? perc) then (c, σ, Some (errInvalidPercent "MarginLeftPercent" perc))
      else if 0 <? margin.leftCells (margin (opts c))
      then (c, σ, Some (errBoth "MarginLeftPercent" perc "MarginLeft" (margin.leftCells (margin (opts c)))))
      else (with_opts (with_margin (margin.set_leftPerc perc (margin (opts c))) (opts c)) c, σ, None)
  | PaddingTop cells =>
      if cells <? 0 then (c, σ, Some (errInvalidCells "PaddingTop" cells))
      else if 0 <? padding.topPerc (padding (opts c))
      then (c, σ, Some (errBoth "PaddingTop" cells "PaddingTopPercent" (padding.topPerc (padding (opts c)))))
      else (with_opts (with_padding (padding.set_topCells cells (padding (opts c))) (opts c)) c, σ, None)
  | PaddingRight cells =>
      if cells <? 0 then (c, σ, Some (errInvalidCells "PaddingRight" cells))
      else if 0 <? padding.rightPerc (padding (opts c))
      then (c, σ, Some (errBoth "PaddingRight" cells "PaddingRightPercent" (padding.rightPerc (padding (opts c)))))
      else (with_opts (with_padding (padding.set_rightCells cells (padding (opts c))) (opts c)) c, σ, None)
  | PaddingBottom cells =>
      if cells <? 0 then (c, σ, Some (errInvalidCells "PaddingBottom" cells))
      else if 0 <? padding.bottomPerc (padding (opts c))
      then (c, σ, Some (errBoth "PaddingBottom" cells "PaddingBottomPercent" (padding.bottomPerc (padding (opts c)))))
      else (with_opts (with_padding (padding.set_bottomCells cells (padding (opts c))) (opts c)) c, σ, None)
  | PaddingLeft cells =>
      if cells <? 0 then (c, σ, Some (errInvalidCells "PaddingLeft" cells))
      else if 0 <? padding.leftPerc (padding (opts c))
      then (c, σ, Some (errBoth "PaddingLeft" cells "PaddingLeftPercent" (padding.leftPerc (padding (opts c)))))
      else (with_opts (with_padding (padding.set_leftCells cells (padding (opts c))) (opts c)) c, σ, None)
  | PaddingTopPercent perc =>
      if (perc <? 0) || (100 <? perc) then (c, σ, Some (errInvalidPercent "PaddingTopPercent" perc))
      else if 0 <? padding.topCells (padding (opts c))
      then (c, σ, Some (errBoth "PaddingTopPercent" perc "PaddingTop" (padding.topCells (padding (opts c)))))
      else (with_opts (with_padding (padding.set_topPerc perc (padding (opts c))) (opts c)) c, σ, None)
  | PaddingRightPercent perc =>
      if (perc <? 0) || (100 <? perc) then (c, σ, Some (errInvalidPercent "PaddingRightPercent" perc))
      else if 0 <? padding.rightCells (padding (opts c))
      then (c, σ, Some (errBoth "PaddingRightPercent" perc "PaddingRight" (padding.rightCells (padding (opts c)))))
      else (with_opts (with_padding (padding.set_rightPerc perc (padding (opts c))) (opts c)) c, σ, None)
  | PaddingBottomPercent perc =>
      if (perc <? 0) || (100 <? perc) then (c, σ, Some (errInvalidPercent "PaddingBottomPercent" perc))
      else if 0 <? padding.bottomCells (padding (opts c))
      then (c, σ, Some (errBoth "PaddingBottomPercent" perc "PaddingBottom" (padding.bottomCells (padding (opts c)))))
      else (with_opts (with_padding (padding.set_bottomPerc perc (padding (opts c))) (opts c)) c, σ, None)
  | PaddingLeftPercent perc =>
      if (perc <? 0) || (100 <? perc) then (c, σ, Some (errInvalidPercent "PaddingLeftPercent" perc))
      else if 0 <? padding.leftCells (padding (opts c))
      then (c, σ, Some (errBoth "PaddingLeftPercent" perc "PaddingLeft" (padding.leftCells (padding (opts c)))))
      else (with_opts (with_padding (padding.set_leftPerc perc (padding (opts c))) (opts c)) c, σ, None)
  | AlignHorizontal h => (with_opts (with_hAlign h (opts c)) c, σ, None)
  | AlignVertical v => (with_opts (with_vAlign v (opts c)) c, σ, None)
  | Border ls => (with_opts (with_border ls (opts c)) c, σ, None)
  | BorderTitle title => (with_opts (with_borderTitle title (opts c)) c, σ, None)
  | BorderTitleAlignLeft => (with_opts (with_borderTitleHAlign HorizontalLeft (opts c)) c, σ, None)
  | BorderTitleAlignCenter => (with_opts (with_borderTitleHAlign HorizontalCenter (opts c)) c, σ, None)
  | BorderTitleAlignRight => (with_opts (with_borderTitleHAlign HorizontalRight (opts c)) c, σ, None)
  | BorderColor color =>
      let i := inherited (opts c) in
      (with_opts (with_inherited
         (inherited.mk color (inherited.focusedColor i) (inherited.titleColor i) (inherited.titleFocusedColor i))
         (opts c)) c, σ, None)
  | FocusedColor color =>
      let i := inherited (opts c) in
      (with_opts (with_inherited
         (inherited.mk (inherited.borderColor i) color (inherited.titleColor i) (inherited.titleFocusedColor i))
         (opts c)) c, σ, None)
  | TitleColor color =>
      let i := inherited (opts c) in
      (with_opts (with_inherited
         (inherited.mk (inherited.borderColor i) (inherited.focusedColor i) (Some color) (inherited.titleFocusedColor i))
         (opts c)) c, σ, None)
  | TitleFocusedColor color =>
      let i := inherited (opts c) in
      (with_opts (with_inherited
         (inherited.mk (inherited.borderColor i) (inherited.focusedColor i) (inherited.titleColor i) (Some color))
         (opts c)) c, σ, None)
  | KeyFocusNext key => updateGlobal (with_keyFocusNext (Some key)) c σ
  | KeyFocusPrevious key => updateGlobal (with_keyFocusPrevious (Some key)) c σ
  | KeyFocusSkip => (with_opts (with_keyFocusSkip true (opts c)) c, σ, None)
  | KeyFocusGroups groups =>
      let cur := match groups with [] => [] | _ => keyFocusGroups (opts c) end in
      let '(cur', err) := appendKeyFocusGroups groups cur in
      (with_opts (with_keyFocusGroups cur' (opts c)) c, σ, err)
  | KeyFocusGroupsNext key groups =>
      let '(σ', err) := keyFocusGroupsNextLoop (global (opts c)) key groups σ in
      (c, σ', err)
  | KeyFocusGroupsPrevious key groups =>
      let '(σ', err) := keyFocusGroupsPreviousLoop (global (opts c)) key groups σ in
      (c, σ', err)
  end.


(** ** Vocabulary of the statements *)

(** The containers of a tree in pre-order: the node, the subtree of [first],
    the subtree of [second]. *)
Fixpoint nodes (c : Container) : list Container :=
  c :: match first c with Some f => nodes f | None => [] end
    ++ match second c with Some s => nodes s | None => [] end.

(** The visitor that validateOptions passes to preOrder, by name. *)
Definition validateNode (c : Container) (seenID : gmap string bool)
    : gmap string bool * option error :=
  match validateIds c seenID with
  | (seenID', Some err) => (seenID', Some err)
  | (seenID', None) => (seenID', validateSplits c)
  end.

(** Visiting the containers of a list in order, up to the first failure. *)
Fixpoint visitAll {S : Type} (visit : Container → S → S * option error)
    (l : list Container) (s : S) : S * option error :=
  match l with
  | [] => (s, None)
  | c :: rest =>
      match visit c s with
      | (s', Some err) => (s', Some err)
      | (s', None) => visitAll visit rest s'
      end
  end.

(** Modelled from the spec: a container with no parent is created in
    container.go, which is not part of the file; by the spec a fresh
    container has no children and no widget.  Its options are those of
    [newOptions(nil)]. *)
Definition newRoot (σ : store) : Container * store :=
  let '(o, σ') := newOptions None σ in (mkContainer None None o, σ').

(** The three states of a node that the spec distinguishes. *)
Definition hasChildren (c : Container) : Prop := is_Some (first c) ∧ is_Some (second c).
Definition hasWidget (c : Container) : Prop := is_Some (widget (opts c)).
Definition hasNeither (c : Container) : Prop := ¬ hasChildren c ∧ ¬ hasWidget c.

(** A node that holds a widget holds no child. *)
Definition widgetIsLeaf (c : Container) : Prop :=
  is_Some (widget (opts c)) → first c = None ∧ second c = None.

(** The two facts about a node that every option preserves: it does not
    hold a widget together with a child (asked for when [leaf] is true),
    and the location of its global options satisfies [G]. *)
Definition nodeInv (leaf : bool) (G : loc → Prop) (n : Container) : Prop :=
  (leaf = true → widgetIsLeaf n) ∧ G (global (opts n)).

(** Every node of the tree satisfies [widgetIsLeaf]. *)
Definition widgetsAreLeaves (c : Container) : Prop := Forall widgetIsLeaf (nodes c).

(** Every node of the tree points to the global options of the root. *)
Definition sharesGlobal (c : Container) : Prop :=
  Forall (λ n, global (opts n) = global (opts c)) (nodes c).

(** The group is in the set of groups mapped to a key: the Go map holds
    [true] for it. *)
Definition inGroups (fg : gmap Z bool) (g : FocusGroup) : Prop := fg !! g = Some true.

(** [c.opts.global], dereferenced. *)
Definition globalOf (c : Container) (σ : store) : option globalOptions :=
  σ !! global (opts c).

(** The result of a call, by component. *)
Definition container_of (r : outcome) : Container := r.1.1.
Definition store_of (r : outcome) : store := r.1.2.
Definition error_of (r : outcome) : option error := r.2.

(** Two option records agree on every field other than [widget]. *)
Definition sameConfiguration (o o' : options) : Prop :=
  id o' = id o ∧ global o' = global o ∧ inherited o' = inherited o
  ∧ split o' = split o ∧ splitReversed o' = splitReversed o
  ∧ splitPercent o' = splitPercent o ∧ splitFixed o' = splitFixed o
  ∧ hAlign o' = hAlign o ∧ vAlign o' = vAlign o
  ∧ border o' = border o ∧ borderTitle o' = borderTitle o
  ∧ borderTitleHAlign o' = borderTitleHAlign o
  ∧ padding o' = padding o ∧ margin o' = margin o
  ∧ keyFocusSkip o' = keyFocusSkip o ∧ keyFocusGroups o' = keyFocusGroups o.

(** The closure of SplitVertical and of SplitHorizontal; the two differ in
    the split type they store. *)
Definition splitBody (st : splitType) (l r : list Option) (sopts : list SplitOption)
    (c : Container) (σ : store) : outcome :=
  let c1 := with_opts (with_widget None (with_split st (opts c))) c in
  match setSplits sopts (opts c1) with
  | (opts', Some err) => (with_opts opts' c1, σ, Some err)
  | (opts', None) =>
      match createFirst set (with_opts opts' c1) l σ with
      | (c', σ', Some err) => (c', σ', Some err)
      | (c', σ', None) => createSecond set c' r σ'
      end
  end.

(** A node has both children or none. *)
Definition childrenPaired (n : Container) : Prop := first n = None ↔ second n = None.

(** Every node holds two children and no widget, or no child. *)
Definition properTree (c : Container) : Prop :=
  Forall (λ n, widgetIsLeaf n ∧ childrenPaired n) (nodes c).

(** [set o], when it succeeds, preserves [properTree]. *)
Definition preservesProper (o : Option) : Prop :=
  ∀ c σ c' σ', set o c σ = (c', σ', None) → properTree c → properTree c'.

(** [set o] preserves [nodeInv] on every node, whatever it returns. *)
Definition preservesInv (o : Option) : Prop :=
  ∀ leaf G c σ, Forall (nodeInv leaf G) (nodes c) →
    Forall (nodeInv leaf G) (nodes (container_of (set o c σ))).

End container.

(** The two abbreviations of the section, for the rest of the file. *)
Abbreviation store := (gmap nat globalOptions).
Abbreviation outcome := (Container * gmap nat globalOptions * option error)%type.

(** ** The sides of a margin or padding, to state facts about the sixteen
    setters at once *)

Inductive spacing := Margin | Padding.
Inductive side := Top | Right | Bottom | Left.

Section sides.
Context `{Externals}.

(** The option that sets the side in cells. *)
Definition cellsOption (k : spacing) (s : side) (cells : Z) : Option :=
  match k, s with
  | Margin, Top => MarginTop cells
  | Margin, Right => MarginRight cells
  | Margin, Bottom => MarginBottom cells
  | Margin, Left => MarginLeft cells
  | Padding, Top => PaddingTop cells
  | Padding, Right => PaddingRight cells
  | Padding, Bottom => PaddingBottom cells
  | Padding, Left => PaddingLeft cells
  end.

(** The option that sets the side as a percentage. *)
Definition percentOption (k : spacing) (s : side) (perc : Z) : Option :=
  match k, s with
  | Margin, Top => MarginTopPercent perc
  | Margin, Right => MarginRightPercent perc
  | Margin, Bottom => MarginBottomPercent perc
  | Margin, Left => MarginLeftPercent perc
  | Padding, Top => PaddingTopPercent perc
  | Padding, Right => PaddingRightPercent perc
  | Padding, Bottom => PaddingBottomPercent perc
  | Padding, Left => PaddingLeftPercent perc
  end.

(** The cells configured for the side. *)
Definition cellsOf (k : spacing) (s : side) (o : options) : Z :=
  match k, s with
  | Margin, Top => margin.topCells (margin o)
  | Margin, Right => margin.rightCells (margin o)
  | Margin, Bottom => margin.bottomCells (margin o)
  | Margin, Left => margin.leftCells (margin o)
  | Padding, Top => padding.topCells (padding o)
  | Padding, Right => padding.rightCells (padding o)
  | Padding, Bottom => padding.bottomCells (padding o)
  | Padding, Left => padding.leftCells (padding o)
  end.

(** The percentage configured for the side. *)
Definition percentOf (k : spacing) (s : side) (o : options) : Z :=
  match k, s with
  | Margin, Top => margin.topPerc (margin o)
  | Margin, Right => margin.rightPerc (margin o)
  | Margin, Bottom => margin.bottomPerc (margin o)
  | Margin, Left => margin.leftPerc (margin o)
  | Padding, Top => padding.topPerc (padding o)
  | Padding, Right => padding.rightPerc (padding o)
  | Padding, Bottom => padding.bottomPerc (padding o)
  | Padding, Left => padding.leftPerc (padding o)
  end.

End sides.

(** ** An instance of the external types, for the concrete examples:
    widgets and keys are numbered, colors, alignments and line styles are
    small integers. *)
Definition exampleExternals : Externals := {|
  Widget := nat;
  Key := Z;
  Color := Z;
  ColorZero := 0;
  ColorYellow := 4;
  Horizontal := Z;
  HorizontalZero := 0;
  HorizontalLeft := 0;
  HorizontalCenter := 1;
  HorizontalRight := 2;
  Vertical := Z;
  VerticalMiddle := 1;
  LineStyle := Z;
  LineStyleZero := 0;
|}.

(** A root container over the empty store, with the example types. *)
Definition exampleRoot : @Container exampleExternals := (@newRoot exampleExternals ∅).1.
Definition exampleStore : gmap nat (@globalOptions exampleExternals) := (@newRoot exampleExternals ∅).2.

(** ** Vocabulary of the further facts *)

Section further_vocabulary.
Context `{Externals}.

(** The option is a split. *)
Definition isSplit (o : Option) : bool :=
  match o with
  | SplitVertical _ _ _ | SplitHorizontal _ _ _ => true
  | _ => false
  end.

(** The option is one of the four that write the global options. *)
Definition isKeyOption (o : Option) : bool :=
  match o with
  | KeyFocusNext _ | KeyFocusPrevious _
  | KeyFocusGroupsNext _ _ | KeyFocusGroupsPrevious _ _ => true
  | _ => false
  end.

(** The option is one of the four that set an inherited color. *)
Definition isColorOption (o : Option) : bool :=
  match o with
  | BorderColor _ | FocusedColor _ | TitleColor _ | TitleFocusedColor _ => true
  | _ => false
  end.

(** A side of a margin or padding is well configured: the cells are not
    negative, the percentage is between 0 and 100, and at most one of the
    two is greater than zero. *)
Definition sideOK (cells perc : Z) : Prop :=
  0 ≤ cells ∧ 0 ≤ perc ≤ 100 ∧ ¬ (0 < cells ∧ 0 < perc).

Definition spacingOK (o : options) : Prop :=
  ∀ k s, sideOK (cellsOf k s o) (percentOf k s o).

(** The split values are in the ranges the split options accept, or at
    their defaults. *)
Definition splitValuesOK (o : options) : Prop :=
  0 < splitPercent o < 100 ∧ (splitFixed o = DefaultSplitFixed ∨ 0 ≤ splitFixed o).

(** No focus group of the container is negative. *)
Definition groupsOK (o : options) : Prop := Forall (λ g, 0 ≤ g) (keyFocusGroups o).

(** Two option records differ at most in margin and padding. *)
Definition sameButSpacing (o o' : options) : Prop :=
  o' = with_margin (margin o') (with_padding (padding o') o).

(** Two option records differ at most in the three split values. *)
Definition sameButSplitValues (o o' : options) : Prop :=
  o' = with_splitReversed (splitReversed o')
         (with_splitPercent (splitPercent o') (with_splitFixed (splitFixed o') o)).

(** The sets of groups of a record of global options are as the two
    key options build them: a key is in one of the two mappings only, and
    a set of groups is not empty, holds no negative group and maps every
    group it holds to [true]. *)
Definition groupSetOK (fg : gmap Z bool) : Prop :=
  fg ≠ ∅ ∧ ∀ g v, fg !! g = Some v → v = true ∧ 0 ≤ g.

Definition globalOK (gl : globalOptions) : Prop :=
  (∀ key, is_Some (keyFocusGroupsNext gl !! key) → keyFocusGroupsPrevious gl !! key = None)
  ∧ (∀ key fg, keyFocusGroupsNext gl !! key = Some fg → groupSetOK fg)
  ∧ (∀ key fg, keyFocusGroupsPrevious gl !! key = Some fg → groupSetOK fg).

Definition storeOK (σ : store) : Prop := ∀ l gl, σ !! l = Some gl → globalOK gl.

(** From [σ] to [σ'] no record is lost, and none but the one at [g] is
    changed. *)
Definition storeExtends (g : loc) (σ σ' : store) : Prop :=
  ∀ l, is_Some (σ !! l) → is_Some (σ' !! l) ∧ (l ≠ g → σ' !! l = σ !! l).

(** The set of groups after the loop of KeyFocusGroupsNext or
    KeyFocusGroupsPrevious has put the groups in. *)
Definition addGroups (fg : gmap Z bool) (groups : list FocusGroup) : gmap Z bool :=
  foldl (λ fg g, <[g := true]> fg) fg groups.


(** splitType is an integer type; the two constants are [iota] 0 and 1. *)
Definition splitTypeValue (st : splitType) : Z :=
  match st with
  | splitTypeVertical => 0
  | splitTypeHorizontal => 1
  end.

(** splitTypeNames maps splitType values to human readable names. *)
Definition splitTypeNames : gmap Z string :=
  {[ splitTypeValue splitTypeVertical := "splitTypeVertical"%string;
     splitTypeValue splitTypeHorizontal := "splitTypeHorizontal"%string ]}.

(** String implements fmt.Stringer(), for any value of the integer type. *)
Definition splitType_String (st : Z) : string :=
  match splitTypeNames !! st with
  | Some n => n
  | None => "splitTypeUnknown"
  end.

End further_vocabulary.

(** * Facts *)

Section facts.
Context `{Externals}.

(** ** Induction over options and containers *)

(** Options nest through the lists of a split; the induction principle
    gives the hypothesis for every option of those lists. *)
Lemma Option_ind' (P : Option → Prop) :
  (∀ l r sopts, Forall P l → Forall P r → P (SplitVertical l r sopts)) →
  (∀ t b sopts, Forall P t → Forall P b → P (SplitHorizontal t b sopts)) →
  (∀ o, (∀ l r sopts, o ≠ SplitVertical l r sopts) →
        (∀ t b sopts, o ≠ SplitHorizontal t b sopts) → P o) →
  ∀ o, P o.
Proof.
  intros HV HH HO.
  fix IH 1. intros o.
  assert (Hlist : ∀ l : list Option, Forall P l).
  { fix IHl 1. intros [|x l]; constructor; [apply IH | apply IHl]. }
  destruct o; try (apply HO; intros; discriminate).
  - apply HV; apply Hlist.
  - apply HH; apply Hlist.
Qed.

Lemma nodes_unfold (c : Container) :
  nodes c = c :: from_option nodes [] (first c) ++ from_option nodes [] (second c).
Proof. destruct c as [[f|] [s|] o]; reflexivity. Qed.

(** ** applyOptions *)

Section applyOptions_facts.
Context {O : Type} (set' : O → Container → store → outcome).

Lemma applyOptions_app (xs ys : list O) (c : Container) (σ : store) :
  applyOptions set' c (xs ++ ys) σ =
  match applyOptions set' c xs σ with
  | (c', σ', Some err) => (c', σ', Some err)
  | (c', σ', None) => applyOptions set' c' ys σ'
  end.
Proof.
  revert c σ. induction xs as [|x xs IH]; intros c σ; simpl.
  - reflexivity.
  - destruct (set' x c σ) as [[c1 σ1] [e|]]; [reflexivity | apply IH].
Qed.

Lemma applyOptions_singleton (o : O) (c : Container) (σ : store) :
  applyOptions set' c [o] σ = set' o c σ.
Proof. simpl. destruct (set' o c σ) as [[c1 σ1] [e|]]; reflexivity. Qed.

(** A property of the container that every option of the list preserves,
    whatever it returns, is preserved by the application of the list. *)
Lemma applyOptions_preserves (Q : Container → Prop) (os : list O) :
  Forall (λ o, ∀ c σ, Q c → Q (container_of (set' o c σ))) os →
  ∀ c σ, Q c → Q (container_of (applyOptions set' c os σ)).
Proof.
  induction 1 as [|o os Ho _ IH]; intros c σ Hc; simpl; [exact Hc |].
  specialize (Ho c σ Hc).
  destruct (set' o c σ) as [[c1 σ1] [e|]]; simpl in *; [exact Ho | by apply IH].
Qed.

(** The same for a property that every option preserves when it succeeds,
    and an application that succeeds. *)
Lemma applyOptions_success_preserves (Q : Container → Prop) (os : list O) :
  Forall (λ o, ∀ c σ c' σ', set' o c σ = (c', σ', None) → Q c → Q c') os →
  ∀ c σ c' σ', applyOptions set' c os σ = (c', σ', None) → Q c → Q c'.
Proof.
  induction 1 as [|o os Ho _ IH]; intros c σ c' σ' Happ Hc; simpl in Happ.
  - by injection Happ as <- _.
  - destruct (set' o c σ) as [[c1 σ1] [e|]] eqn:Hset; [done |].
    eapply IH; [exact Happ |]. by eapply Ho.
Qed.

End applyOptions_facts.


(** ** What an option touches *)

Lemma setSplit_frame (so : SplitOption) (o : options) :
  widget (setSplit so o).1 = widget o ∧ global (setSplit so o).1 = global o.
Proof. destruct so; simpl; repeat case_match; simpl; auto. Qed.

Lemma setSplits_frame (sopts : list SplitOption) (o : options) :
  widget (setSplits sopts o).1 = widget o ∧ global (setSplits sopts o).1 = global o.
Proof.
  revert o. induction sopts as [|so sopts IH]; intros o; simpl; [auto |].
  pose proof (setSplit_frame so o) as [Hw Hg].
  destruct (setSplit so o) as [o1 [e|]]; simpl in *; [auto |].
  destruct (IH o1) as [Hw' Hg']. split; congruence.
Qed.

Lemma newOptions_child (p : options) (σ : store) :
  global (newOptions (Some p) σ).1 = global p
  ∧ inherited (newOptions (Some p) σ).1 = inherited p
  ∧ widget (newOptions (Some p) σ).1 = None.
Proof. done. Qed.

(** An option other than a split leaves the pointer to the global options
    alone, and either leaves the children and the widget alone or removes
    both children. *)
Lemma set_nonsplit_shape (o : Option) (c : Container) (σ : store) :
  (∀ l r sopts, o ≠ SplitVertical l r sopts) →
  (∀ t b sopts, o ≠ SplitHorizontal t b sopts) →
  global (opts (container_of (set o c σ))) = global (opts c)
  ∧ ((first (container_of (set o c σ)) = first c
      ∧ second (container_of (set o c σ)) = second c
      ∧ widget (opts (container_of (set o c σ))) = widget (opts c))
     ∨ (first (container_of (set o c σ)) = None
        ∧ second (container_of (set o c σ)) = None)).
Proof.
  intros HV HH.
  destruct o; try (by destruct (HV _ _ _ eq_refl)); try (by destruct (HH _ _ _ eq_refl));
    unfold container_of; simpl; unfold updateGlobal;
    repeat case_match; simpl; auto.
Qed.

Section create_facts.
Context {O : Type} (set' : O → Container → store → outcome).

Lemma createFirst_shape (c : Container) (os : list O) (σ : store) :
  opts (container_of (createFirst set' c os σ)) = opts c
  ∧ second (container_of (createFirst set' c os σ)) = second c
  ∧ first (container_of (createFirst set' c os σ)) =
      Some (container_of (applyOptions set' (mkContainer None None (newOptions (Some (opts c)) σ).1)
                            os (newOptions (Some (opts c)) σ).2)).
Proof.
  unfold createFirst. destruct (newOptions (Some (opts c)) σ) as [o σ1]. simpl.
  destruct (applyOptions set' _ os σ1) as [[child σ2] err]. done.
Qed.

Lemma createSecond_shape (c : Container) (os : list O) (σ : store) :
  opts (container_of (createSecond set' c os σ)) = opts c
  ∧ first (container_of (createSecond set' c os σ)) = first c
  ∧ second (container_of (createSecond set' c os σ)) =
      Some (container_of (applyOptions set' (mkContainer None None (newOptions (Some (opts c)) σ).1)
                            os (newOptions (Some (opts c)) σ).2)).
Proof.
  unfold createSecond. destruct (newOptions (Some (opts c)) σ) as [o σ1]. simpl.
  destruct (applyOptions set' _ os σ1) as [[child σ2] err]. done.
Qed.

Lemma createFirst_eq (c : Container) (os : list O) (σ : store) :
  createFirst set' c os σ =
  let r := applyOptions set' (mkContainer None None (newOptions (Some (opts c)) σ).1)
             os (newOptions (Some (opts c)) σ).2 in
  (with_first (Some (container_of r)) c, store_of r, error_of r).
Proof.
  unfold createFirst. destruct (newOptions (Some (opts c)) σ) as [o σ1]. simpl.
  by destruct (applyOptions set' _ os σ1) as [[child σ2] err].
Qed.

Lemma createSecond_eq (c : Container) (os : list O) (σ : store) :
  createSecond set' c os σ =
  let r := applyOptions set' (mkContainer None None (newOptions (Some (opts c)) σ).1)
             os (newOptions (Some (opts c)) σ).2 in
  (with_second (Some (container_of r)) c, store_of r, error_of r).
Proof.
  unfold createSecond. destruct (newOptions (Some (opts c)) σ) as [o σ1]. simpl.
  by destruct (applyOptions set' _ os σ1) as [[child σ2] err].
Qed.

End create_facts.


(** ** The invariant of the tree *)

Lemma nodeInv_root (leaf : bool) (G : loc → Prop) (c : Container) :
  Forall (nodeInv leaf G) (nodes c) → G (global (opts c)).
Proof. rewrite nodes_unfold. intros Hc. apply Forall_cons_1 in Hc as [[_ Hg] _]. exact Hg. Qed.

Lemma nodeInv_children (leaf : bool) (G : loc → Prop) (c : Container) :
  Forall (nodeInv leaf G) (nodes c) →
  Forall (nodeInv leaf G) (from_option nodes [] (first c))
  ∧ Forall (nodeInv leaf G) (from_option nodes [] (second c)).
Proof.
  rewrite nodes_unfold. intros Hc. apply Forall_cons_1 in Hc as [_ Hc].
  by apply Forall_app in Hc.
Qed.

Lemma nodeInv_no_widget (leaf : bool) (G : loc → Prop) (c : Container) :
  widget (opts c) = None → G (global (opts c)) →
  Forall (nodeInv leaf G) (from_option nodes [] (first c)) →
  Forall (nodeInv leaf G) (from_option nodes [] (second c)) →
  Forall (nodeInv leaf G) (nodes c).
Proof.
  intros Hw Hg Hf Hs. rewrite nodes_unfold. constructor.
  - split; [| exact Hg]. intros _ [w Hsome]. congruence.
  - by apply Forall_app.
Qed.

Lemma child_inv (leaf : bool) (G : loc → Prop) (p : options) (os : list Option) (σ : store) :
  Forall preservesInv os → G (global p) →
  Forall (nodeInv leaf G)
    (nodes (container_of (applyOptions set (mkContainer None None (newOptions (Some p) σ).1)
                            os (newOptions (Some p) σ).2))).
Proof.
  intros Hos Hg.
  apply (applyOptions_preserves set (λ c, Forall (nodeInv leaf G) (nodes c))).
  - eapply Forall_impl; [exact Hos |]. intros o Ho c σ'. apply Ho.
  - apply nodeInv_no_widget; simpl; try done.
Qed.

Lemma createFirst_inv (leaf : bool) (G : loc → Prop) (c : Container) (os : list Option) (σ : store) :
  Forall preservesInv os → widget (opts c) = None →
  Forall (nodeInv leaf G) (nodes c) →
  Forall (nodeInv leaf G) (nodes (container_of (createFirst set c os σ))).
Proof.
  intros Hos Hw Hc.
  destruct (createFirst_shape set c os σ) as (Ho & Hs & Hf).
  apply nodeInv_no_widget.
  - by rewrite Ho.
  - rewrite Ho. by eapply nodeInv_root.
  - rewrite Hf. simpl. apply child_inv; [done | by eapply nodeInv_root].
  - rewrite Hs. by eapply nodeInv_children.
Qed.

Lemma createSecond_inv (leaf : bool) (G : loc → Prop) (c : Container) (os : list Option) (σ : store) :
  Forall preservesInv os → widget (opts c) = None →
  Forall (nodeInv leaf G) (nodes c) →
  Forall (nodeInv leaf G) (nodes (container_of (createSecond set c os σ))).
Proof.
  intros Hos Hw Hc.
  destruct (createSecond_shape set c os σ) as (Ho & Hf & Hs).
  apply nodeInv_no_widget.
  - by rewrite Ho.
  - rewrite Ho. by eapply nodeInv_root.
  - rewrite Hf. by eapply nodeInv_children.
  - rewrite Hs. simpl. apply child_inv; [done | by eapply nodeInv_root].
Qed.

Lemma set_split (l r : list Option) (sopts : list SplitOption) (c : Container) (σ : store) :
  set (SplitVertical l r sopts) c σ = splitBody splitTypeVertical l r sopts c σ
  ∧ set (SplitHorizontal l r sopts) c σ = splitBody splitTypeHorizontal l r sopts c σ.
Proof. done. Qed.

Lemma split_inv (leaf : bool) (G : loc → Prop) (st : splitType) (l r : list Option)
    (sopts : list SplitOption) (c : Container) (σ : store) :
  Forall preservesInv l → Forall preservesInv r →
  Forall (nodeInv leaf G) (nodes c) →
  Forall (nodeInv leaf G) (nodes (container_of (splitBody st l r sopts c σ))).
Proof.
  intros Hl Hr Hc. unfold splitBody. cbv zeta.
  set (c1 := with_opts (with_widget None (with_split st (opts c))) c).
  destruct (setSplits_frame sopts (opts c1)) as [Hw Hg].
  assert (Hc2 : ∀ o', widget o' = None → global o' = global (opts c) →
            Forall (nodeInv leaf G) (nodes (with_opts o' c1))).
  { intros o' Hw' Hg'. apply nodeInv_no_widget; simpl; try done.
    - rewrite Hg'. by eapply nodeInv_root.
    - by eapply nodeInv_children.
    - by eapply nodeInv_children. }
  destruct (setSplits sopts (opts c1)) as [o' [e|]]; simpl in Hw, Hg.
  - by apply Hc2.
  - pose proof (createFirst_inv leaf G (with_opts o' c1) l σ Hl Hw (Hc2 o' Hw Hg)) as H1.
    destruct (createFirst_shape set (with_opts o' c1) l σ) as (Ho1 & _ & _).
    destruct (createFirst set (with_opts o' c1) l σ) as [[c3 σ3] [e|]];
      unfold container_of in *; simpl in *.
    + exact H1.
    + apply createSecond_inv; [done | by rewrite Ho1 | done].
Qed.

Lemma set_preservesInv (o : Option) : preservesInv o.
Proof.
  induction o as [l r sopts Hl Hr | t b sopts Ht Hb | o HV HH] using Option_ind'.
  - intros leaf G c σ Hc. by apply (split_inv leaf G splitTypeVertical).
  - intros leaf G c σ Hc. by apply (split_inv leaf G splitTypeHorizontal).
  - intros leaf G c σ Hc.
    destruct (set_nonsplit_shape o c σ HV HH) as [Hg [(Hf & Hs & Hw) | (Hf & Hs)]].
    + rewrite nodes_unfold, Hf, Hs.
      pose proof (nodeInv_children leaf G c Hc) as [Hcf Hcs].
      constructor; [| by apply Forall_app].
      rewrite nodes_unfold in Hc. apply Forall_cons_1 in Hc as [[Hleaf Hg0] _].
      split; [| by rewrite Hg].
      intros Hb. specialize (Hleaf Hb). unfold widgetIsLeaf in *. by rewrite Hf, Hs, Hw.
    + rewrite nodes_unfold, Hf, Hs. simpl. constructor; [| constructor].
      split; [done |]. rewrite Hg. by eapply nodeInv_root.
Qed.

Lemma applyOptions_preservesInv (leaf : bool) (G : loc → Prop) (os : list Option) (c : Container) (σ : store) :
  Forall (nodeInv leaf G) (nodes c) →
  Forall (nodeInv leaf G) (nodes (container_of (applyOptions set c os σ))).
Proof.
  apply (applyOptions_preserves set (λ c, Forall (nodeInv leaf G) (nodes c))).
  apply Forall_forall. intros o _ c' σ'. apply set_preservesInv.
Qed.


(** ** Children and widget *)

Lemma widgetsAreLeaves_nodeInv (c : Container) :
  widgetsAreLeaves c ↔ Forall (nodeInv true (λ _, True)) (nodes c).
Proof.
  unfold widgetsAreLeaves, nodeInv. split; intros Hc; eapply Forall_impl; try exact Hc;
    simpl; intros n Hn; [by split | by apply Hn].
Qed.

(** The options of the container that a split leaves are those the split
    options left, in every outcome: creating the children does not touch
    them. *)
Lemma split_opts (st : splitType) (l r : list Option) (sopts : list SplitOption)
    (c : Container) (σ : store) :
  opts (container_of (splitBody st l r sopts c σ))
  = (setSplits sopts (with_widget None (with_split st (opts c)))).1.
Proof.
  unfold splitBody. cbv zeta.
  set (c1 := with_opts (with_widget None (with_split st (opts c))) c).
  change (with_widget None (with_split st (opts c))) with (opts c1).
  destruct (setSplits sopts (opts c1)) as [o' [e|]]; [done |].
  destruct (createFirst_shape set (with_opts o' c1) l σ) as (Ho1 & _ & _).
  destruct (createFirst set (with_opts o' c1) l σ) as [[c3 σ3] [e|]];
    unfold container_of in *; simpl in *; [done |].
  destruct (createSecond_shape set c3 r σ3) as (Ho2 & _ & _).
  unfold container_of in Ho2. by rewrite Ho2, Ho1.
Qed.

Lemma split_root (st : splitType) (l r : list Option) (sopts : list SplitOption)
    (c : Container) (σ : store) :
  widget (opts (container_of (splitBody st l r sopts c σ))) = None
  ∧ global (opts (container_of (splitBody st l r sopts c σ))) = global (opts c).
Proof.
  rewrite split_opts.
  by destruct (setSplits_frame sopts (with_widget None (with_split st (opts c)))) as [-> ->].
Qed.

Lemma set_keeps_global (o : Option) (c : Container) (σ : store) :
  global (opts (container_of (set o c σ))) = global (opts c).
Proof.
  destruct o;
    try (apply set_nonsplit_shape; intros; discriminate).
  - apply (split_root splitTypeVertical l r sopts c σ).
  - apply (split_root splitTypeHorizontal t b sopts c σ).
Qed.

(** *** After successful applications *)

Lemma properTree_unfold (c : Container) :
  properTree c ↔
  (widgetIsLeaf c ∧ childrenPaired c)
  ∧ from_option properTree True (first c) ∧ from_option properTree True (second c).
Proof.
  unfold properTree. rewrite nodes_unfold, Forall_cons, Forall_app.
  by destruct (first c), (second c); simpl; rewrite ?Forall_nil.
Qed.

Lemma child_proper (os : list Option) (p : options) (σ : store) (child : Container) (σ' : store) :
  Forall preservesProper os →
  applyOptions set (mkContainer None None (newOptions (Some p) σ).1) os (newOptions (Some p) σ).2
    = (child, σ', None) →
  properTree child.
Proof.
  intros Hos Happ.
  eapply (applyOptions_success_preserves set properTree os); [| exact Happ |].
  - eapply Forall_impl; [exact Hos |]. intros o Ho c1 σ1 c2 σ2. apply Ho.
  - apply properTree_unfold. simpl. split; [| done]. split; [| done].
    intros [w Hw]. discriminate Hw.
Qed.

Lemma split_success_proper (st : splitType) (l r : list Option) (sopts : list SplitOption)
    (c : Container) (σ : store) (c' : Container) (σ' : store) :
  Forall preservesProper l → Forall preservesProper r →
  splitBody st l r sopts c σ = (c', σ', None) → properTree c'.
Proof.
  intros Hl Hr. unfold splitBody. cbv zeta.
  set (c1 := with_opts (with_widget None (with_split st (opts c))) c).
  destruct (setSplits_frame sopts (opts c1)) as [Hw _].
  destruct (setSplits sopts (opts c1)) as [o' [e|]]; [done |]. simpl in Hw.
  rewrite createFirst_eq. cbv zeta.
  destruct (applyOptions set (mkContainer None None (newOptions (Some (opts (with_opts o' c1))) σ).1)
              l (newOptions (Some (opts (with_opts o' c1))) σ).2) as [[ch1 σ1] [e|]] eqn:H1;
    unfold container_of, store_of, error_of; simpl; [done |].
  rewrite createSecond_eq. cbv zeta.
  change (opts (with_first (Some ch1) (with_opts o' c1))) with o'.
  destruct (applyOptions set (mkContainer None None (newOptions (Some o') σ1).1)
              r (newOptions (Some o') σ1).2) as [[ch2 σ2] [e|]] eqn:H2;
    unfold container_of, store_of, error_of; simpl; [done |].
  intros [= <- _]. apply properTree_unfold. simpl.
  split; [split |].
  - intros [w Hsome]. simpl in Hsome. congruence.
  - by split.
  - split; [exact (child_proper l _ _ _ _ Hl H1) | exact (child_proper r _ _ _ _ Hr H2)].
Qed.

Lemma set_preservesProper (o : Option) : preservesProper o.
Proof.
  induction o as [l r sopts Hl Hr | t b sopts Ht Hb | o HV HH] using Option_ind'.
  - intros c σ c' σ' Hset _. rewrite (proj1 (set_split l r sopts c σ)) in Hset.
    exact (split_success_proper _ l r sopts c σ c' σ' Hl Hr Hset).
  - intros c σ c' σ' Hset _. rewrite (proj2 (set_split t b sopts c σ)) in Hset.
    exact (split_success_proper _ t b sopts c σ c' σ' Ht Hb Hset).
  - intros c σ c' σ' Hset Hc.
    pose proof (set_nonsplit_shape o c σ HV HH) as [_ Hshape].
    rewrite Hset in Hshape. unfold container_of in Hshape. simpl in Hshape.
    apply properTree_unfold in Hc as [[Hleaf Hpair] [Hf Hs]].
    apply properTree_unfold.
    destruct Hshape as [(Hf' & Hs' & Hw') | (Hf' & Hs')].
    + unfold widgetIsLeaf, childrenPaired in *. by rewrite Hf', Hs', Hw'.
    + unfold widgetIsLeaf, childrenPaired. by rewrite Hf', Hs'.
Qed.

(** C3. A container never holds child containers and a widget at the same
    time.  A fresh container holds neither; whatever list of options is
    applied to a tree in which no node holds both, and whether or not the
    application fails, no node of the resulting tree holds both, so that
    exactly one of "two children", "a widget" and "neither of the two" is
    true of each node.  A vertical or horizontal split leaves the container
    without a widget in every outcome, and PlaceWidget leaves it without
    first and second child.  When the application succeeds, in addition
    every node has both children or no child at all. *)
Theorem children_and_widget_exclusive :
  (∀ σ, widgetsAreLeaves (newRoot σ).1)
  ∧ (∀ c σ os, widgetsAreLeaves c → widgetsAreLeaves (container_of (applyOptions set c os σ)))
  ∧ (∀ c n, widgetsAreLeaves c → n ∈ nodes c →
       ¬ (hasChildren n ∧ hasWidget n)
       ∧ ((hasChildren n ∧ ¬ hasWidget n ∧ ¬ hasNeither n)
          ∨ (¬ hasChildren n ∧ hasWidget n ∧ ¬ hasNeither n)
          ∨ (¬ hasChildren n ∧ ¬ hasWidget n ∧ hasNeither n)))
  ∧ (∀ l r sopts c σ, widget (opts (container_of (set (SplitVertical l r sopts) c σ))) = None)
  ∧ (∀ t b sopts c σ, widget (opts (container_of (set (SplitHorizontal t b sopts) c σ))) = None)
  ∧ (∀ w c σ, first (container_of (set (PlaceWidget w) c σ)) = None
              ∧ second (container_of (set (PlaceWidget w) c σ)) = None)
  ∧ (∀ σ, properTree (newRoot σ).1)
  ∧ (∀ c σ os, properTree c → error_of (applyOptions set c os σ) = None →
       properTree (container_of (applyOptions set c os σ))).
Proof.
  split; [| split; [| split; [| split; [| split; [| split; [| split]]]]]].
  - intros σ. unfold widgetsAreLeaves, newRoot. simpl.
    constructor; [| constructor]. intros [w Hw]. discriminate.
  - intros c σ os Hc. apply widgetsAreLeaves_nodeInv.
    apply applyOptions_preservesInv. by apply widgetsAreLeaves_nodeInv.
  - intros c n Hc Hn.
    unfold widgetsAreLeaves in Hc. rewrite Forall_forall in Hc. specialize (Hc n Hn).
    unfold widgetIsLeaf, hasNeither, hasChildren, hasWidget in *.
    assert (HN : ∀ A, ¬ is_Some (@None A)) by (intros A [? ?]; discriminate).
    assert (HS : ∀ A (x : A), is_Some (Some x)) by (intros; by eexists).
    pose proof (HN Container). pose proof (HN Widget).
    destruct (widget (opts n)) as [w|].
    + destruct Hc as [-> ->]; [done |]. pose proof (HS _ w). tauto.
    + destruct (first n) as [f|], (second n) as [s|];
        try pose proof (HS _ f); try pose proof (HS _ s); tauto.
  - intros l r sopts c σ. apply (split_root splitTypeVertical l r sopts c σ).
  - intros t b sopts c σ. apply (split_root splitTypeHorizontal t b sopts c σ).
  - intros w c σ. done.
  - intros σ. apply properTree_unfold. unfold newRoot. simpl.
    split; [| done]. split; [| done]. intros [w Hw]. discriminate Hw.
  - intros c σ os Hc Hok.
    destruct (applyOptions set c os σ) as [[c' σ'] e] eqn:Happ.
    unfold error_of, container_of in *. simpl in *. subst e.
    eapply (applyOptions_success_preserves set properTree os); [| exact Happ | exact Hc].
    apply Forall_forall. intros o _ c1 σ1 c2 σ2. apply set_preservesProper.
Qed.

(** ** Clear and PlaceWidget *)

(** C8. Whatever the container held before, applying Clear and then
    PlaceWidget(w) succeeds and leaves a container whose widget is [w] and
    which has no first and no second child. *)
Theorem clear_then_placeWidget (c : Container) (σ : store) (w : option Widget) :
  error_of (applyOptions set c [Clear; PlaceWidget w] σ) = None
  ∧ widget (opts (container_of (applyOptions set c [Clear; PlaceWidget w] σ))) = w
  ∧ first (container_of (applyOptions set c [Clear; PlaceWidget w] σ)) = None
  ∧ second (container_of (applyOptions set c [Clear; PlaceWidget w] σ)) = None.
Proof. done. Qed.

(** C10. Clear and PlaceWidget(w) write the widget and the two child
    pointers only: they succeed, every other field of the options is as it
    was, and the store that holds the shared global options is the same. *)
Theorem clear_placeWidget_frame (c : Container) (σ : store) (w : option Widget) :
  (error_of (set Clear c σ) = None
   ∧ sameConfiguration (opts c) (opts (container_of (set Clear c σ)))
   ∧ store_of (set Clear c σ) = σ)
  ∧ (error_of (set (PlaceWidget w) c σ) = None
     ∧ sameConfiguration (opts c) (opts (container_of (set (PlaceWidget w) c σ)))
     ∧ store_of (set (PlaceWidget w) c σ) = σ).
Proof. unfold sameConfiguration. simpl. done. Qed.

(** ** Order of application *)

(** C5. applyOptions applies the options in the order of the list: the
    empty list does nothing, a single option is that option's [set], and a
    concatenation is the first part followed, if it succeeds, by the second
    part from the state the first left.  When the options before [o] all
    succeed and [o] fails with [e], the call returns [e] and the container
    and store are exactly those that [o] left behind: the options after
    [o] play no part and nothing done before is undone. *)
Theorem applyOptions_in_order_until_error {O : Type} (set' : O → Container → store → outcome) :
  (∀ c σ, applyOptions set' c [] σ = (c, σ, None))
  ∧ (∀ o c σ, applyOptions set' c [o] σ = set' o c σ)
  ∧ (∀ xs ys c σ,
       applyOptions set' c (xs ++ ys) σ =
       match applyOptions set' c xs σ with
       | (c', σ', Some err) => (c', σ', Some err)
       | (c', σ', None) => applyOptions set' c' ys σ'
       end)
  ∧ (∀ pre o post c σ c1 σ1 c2 σ2 e,
       applyOptions set' c pre σ = (c1, σ1, None) →
       set' o c1 σ1 = (c2, σ2, Some e) →
       applyOptions set' c (pre ++ o :: post) σ = (c2, σ2, Some e)).
Proof.
  split; [done |]. split; [apply applyOptions_singleton |]. split; [apply applyOptions_app |].
  intros pre o post c σ c1 σ1 c2 σ2 e Hpre Ho.
  rewrite applyOptions_app, Hpre. simpl. by rewrite Ho.
Qed.

(** ** firstMatching *)

Lemma inGroups_index (fg : gmap Z bool) (g : FocusGroup) :
  (default false (fg !! g) = true ↔ inGroups fg g)
  ∧ (default false (fg !! g) = false ↔ ¬ inGroups fg g).
Proof. unfold inGroups. destruct (fg !! g) as [[|]|]; simpl; split; split; try done; by intros []. Qed.

(** C6. firstMatching returns the first group of the container's list, in
    the order of the list, that is in the set of groups mapped to the key:
    the groups before it are not in the set.  It reports no match, with
    group 0, exactly when no group of the list is in the set.  For the
    list [2, 1] and the set {1, 2} the answer is group 2. *)
Theorem firstMatching_first_declared (fg : gmap Z bool) (contGroups : list FocusGroup) :
  (∀ g, firstMatching fg contGroups = (true, g) ↔
        ∃ before after, contGroups = before ++ g :: after
          ∧ inGroups fg g ∧ ∀ x, x ∈ before → ¬ inGroups fg x)
  ∧ (∀ g, firstMatching fg contGroups = (false, g) ↔
          g = 0 ∧ ∀ x, x ∈ contGroups → ¬ inGroups fg x)
  ∧ firstMatching (<[1 := true]> (<[2 := true]> ∅)) [2; 1] = (true, 2).
Proof.
  split; [| split; [| reflexivity]].
  - induction contGroups as [|cg rest IH]; intros g; simpl.
    + split; [discriminate |]. intros (before & after & Heq & _). by destruct before.
    + destruct (default false (fg !! cg)) eqn:Hcg.
      * apply (proj1 (inGroups_index fg cg)) in Hcg. split.
        -- intros [= <-]. exists [], rest. split; [done |]. split; [done |].
           intros x Hx. by apply elem_of_nil in Hx.
        -- intros (before & after & Heq & Hg & Hbefore). destruct before as [|b before].
           ++ simpl in Heq. by injection Heq as ->.
           ++ simpl in Heq. injection Heq as -> _.
              by destruct (Hbefore b (list_elem_of_here _ _)).
      * apply (proj2 (inGroups_index fg cg)) in Hcg. rewrite IH. split.
        -- intros (before & after & -> & Hg & Hbefore). exists (cg :: before), after.
           split; [done |]. split; [done |].
           intros x [-> | Hx]%elem_of_cons; auto.
        -- intros (before & after & Heq & Hg & Hbefore). destruct before as [|b before].
           ++ simpl in Heq. injection Heq as -> _. done.
           ++ simpl in Heq. injection Heq as -> ->. exists before, after.
              split; [done |]. split; [done |].
              intros x Hx. apply Hbefore. by apply list_elem_of_further.
  - induction contGroups as [|cg rest IH]; intros g; simpl.
    + split.
      * intros [= <-]. split; [done |]. intros x Hx. by apply elem_of_nil in Hx.
      * by intros [-> _].
    + destruct (default false (fg !! cg)) eqn:Hcg.
      * apply (proj1 (inGroups_index fg cg)) in Hcg. split; [discriminate |]. intros [_ Hall].
        by destruct (Hall cg (list_elem_of_here _ _)).
      * apply (proj2 (inGroups_index fg cg)) in Hcg. rewrite IH. split.
        -- intros [-> Hall]. split; [done |]. intros x [-> | Hx]%elem_of_cons; auto.
        -- intros [-> Hall]. split; [done |]. intros x Hx. apply Hall.
           by apply list_elem_of_further.
Qed.

(** ** Margin and padding *)

Section apply_facts.
Context {E : Type}.
Variable Shrink : image.Rectangle → Z → Z → Z → Z → image.Rectangle * option E.
Variable ShrinkPercent : image.Rectangle → Z → Z → Z → Z → image.Rectangle * option E.

(** As soon as one side is set in cells, the area is shrunk by the four cell
    values and the percentages are not read. *)
Lemma margin_apply_cells (p : margin.t) (ar : image.Rectangle) :
  margin.topCells p ≠ 0 ∨ margin.rightCells p ≠ 0
    ∨ margin.bottomCells p ≠ 0 ∨ margin.leftCells p ≠ 0 →
  margin.apply Shrink ShrinkPercent p ar =
  Shrink ar (margin.topCells p) (margin.rightCells p) (margin.bottomCells p) (margin.leftCells p).
Proof.
  intros Hset. unfold margin.apply.
  destruct (margin.topCells p =? 0) eqn:H1, (margin.rightCells p =? 0) eqn:H2,
    (margin.bottomCells p =? 0) eqn:H3, (margin.leftCells p =? 0) eqn:H4; simpl; try done.
  lia.
Qed.

Lemma padding_apply_cells (p : padding.t) (ar : image.Rectangle) :
  padding.topCells p ≠ 0 ∨ padding.rightCells p ≠ 0
    ∨ padding.bottomCells p ≠ 0 ∨ padding.leftCells p ≠ 0 →
  padding.apply Shrink ShrinkPercent p ar =
  Shrink ar (padding.topCells p) (padding.rightCells p) (padding.bottomCells p) (padding.leftCells p).
Proof.
  intros Hset. unfold padding.apply.
  destruct (padding.topCells p =? 0) eqn:H1, (padding.rightCells p =? 0) eqn:H2,
    (padding.bottomCells p =? 0) eqn:H3, (padding.leftCells p =? 0) eqn:H4; simpl; try done.
  lia.
Qed.

(** C1. The options MarginLeft(1), MarginTopPercent(10), PaddingLeft(1) and
    PaddingTopPercent(10) are all accepted on a new container: the left
    side is set in cells and the top side, a different one, as a
    percentage.  Applying that margin (or that padding) to any area is
    area.Shrink by 0, 0, 0 and 1 cells: the left side is shrunk by its
    cell, and the top side is not shrunk at all, its percentage is never
    passed on. *)
Theorem percent_side_dropped_when_cells_set (σ : store) (ar : image.Rectangle) :
  let r := applyOptions set (newRoot σ).1
             [MarginLeft 1; MarginTopPercent 10; PaddingLeft 1; PaddingTopPercent 10]
             (newRoot σ).2 in
  error_of r = None
  ∧ margin (opts (container_of r)) = margin.mk 0 10 0 0 0 0 1 0
  ∧ padding (opts (container_of r)) = padding.mk 0 10 0 0 0 0 1 0
  ∧ margin.apply Shrink ShrinkPercent (margin (opts (container_of r))) ar = Shrink ar 0 0 0 1
  ∧ padding.apply Shrink ShrinkPercent (padding (opts (container_of r))) ar = Shrink ar 0 0 0 1.
Proof. done. Qed.

End apply_facts.

(** ** Inherited and global options *)

Lemma sharesGlobal_nodeInv (c : Container) :
  sharesGlobal c ↔ Forall (nodeInv false (λ l, l = global (opts c))) (nodes c).
Proof.
  unfold sharesGlobal, nodeInv. split; intros Hc; eapply Forall_impl; try exact Hc;
    simpl; intros n Hn; [by split | by apply Hn].
Qed.

(** C7. The options of a child, made by newOptions from those of the parent,
    hold a copy of the parent's inherited options and the parent's pointer
    to the global options.  Overriding an inherited color on a container
    writes that container's own record and nothing in the store, the only
    thing containers share.  Every container of a tree built by options
    points to the same global options, so after any option is applied to
    one container every other one reads the record that this one reads; in
    particular a key set by KeyFocusNext or KeyFocusPrevious through one is
    read through all. *)
Theorem child_copies_inherited_shares_global :
  (∀ p σ, inherited (newOptions (Some p) σ).1 = inherited p
          ∧ global (newOptions (Some p) σ).1 = global p)
  ∧ (∀ c σ color,
       (inherited.borderColor (inherited (opts (container_of (set (BorderColor color) c σ)))) = color
        ∧ store_of (set (BorderColor color) c σ) = σ)
       ∧ (inherited.focusedColor (inherited (opts (container_of (set (FocusedColor color) c σ)))) = color
          ∧ store_of (set (FocusedColor color) c σ) = σ)
       ∧ (inherited.titleColor (inherited (opts (container_of (set (TitleColor color) c σ)))) = Some color
          ∧ store_of (set (TitleColor color) c σ) = σ)
       ∧ (inherited.titleFocusedColor (inherited (opts (container_of (set (TitleFocusedColor color) c σ))))
            = Some color
          ∧ store_of (set (TitleFocusedColor color) c σ) = σ))
  ∧ (∀ σ, sharesGlobal (newRoot σ).1)
  ∧ (∀ c σ os, sharesGlobal c → sharesGlobal (container_of (applyOptions set c os σ)))
  ∧ (∀ c n m σ o, sharesGlobal c → n ∈ nodes c → m ∈ nodes c →
       globalOf m (store_of (set o n σ)) = globalOf (container_of (set o n σ)) (store_of (set o n σ)))
  ∧ (∀ c n m σ gl key, sharesGlobal c → n ∈ nodes c → m ∈ nodes c → globalOf n σ = Some gl →
       globalOf m (store_of (set (KeyFocusNext key) n σ)) = Some (with_keyFocusNext (Some key) gl)
       ∧ globalOf m (store_of (set (KeyFocusPrevious key) n σ))
           = Some (with_keyFocusPrevious (Some key) gl)).
Proof.
  assert (Hsame : ∀ c n m, sharesGlobal c → n ∈ nodes c → m ∈ nodes c →
            global (opts m) = global (opts n)).
  { intros c n m Hc Hn Hm. unfold sharesGlobal in Hc. rewrite Forall_forall in Hc.
    by rewrite (Hc n Hn), (Hc m Hm). }
  split; [done |]. split; [done |]. split; [| split; [| split]].
  - intros σ. unfold sharesGlobal, newRoot. simpl. by constructor.
  - intros c σ os Hc. apply sharesGlobal_nodeInv in Hc.
    pose proof (applyOptions_preservesInv _ _ os c σ Hc) as Hc'.
    apply sharesGlobal_nodeInv.
    by rewrite (nodeInv_root _ _ _ Hc').
  - intros c n m σ o Hc Hn Hm. unfold globalOf.
    by rewrite set_keeps_global, (Hsame c n m).
  - intros c n m σ gl key Hc Hn Hm Hgl. unfold globalOf in *.
    rewrite (Hsame c n m Hc Hn Hm). unfold store_of. simpl. unfold updateGlobal.
    rewrite Hgl. simpl. by rewrite !lookup_insert_eq.
Qed.

(** ** Keys of focus groups *)

Lemma keyFocusGroupsNextLoop_negative (l : loc) (key : Key) (groups : list FocusGroup) (σ : store) :
  is_Some (σ !! l) → (∃ x, x ∈ groups ∧ x < 0) →
  ∃ e, (keyFocusGroupsNextLoop l key groups σ).2 = Some e
       ∧ ((∃ x, x ∈ groups ∧ x < 0 ∧ e = errInvalidGroupForKey x key)
          ∨ (∃ fgs, e = errKeyAssignedPrevious key fgs)).
Proof.
  revert σ. induction groups as [|g rest IH]; intros σ Hl (x & Hx & Hneg).
  - by apply elem_of_nil in Hx.
  - simpl. destruct (g <? 0) eqn:Hg.
    + eexists. split; [done |]. left. exists g. split; [by left |]. split; [lia | done].
    + destruct Hl as [gl Hgl]. rewrite Hgl.
      destruct (keyFocusGroupsPrevious gl !! key) as [fgs|].
      * eexists. split; [done |]. right. by eexists.
      * apply elem_of_cons in Hx as [-> | Hx]; [lia |].
        destruct (IH (<[l := with_keyFocusGroupsNext
                        (<[key := <[g := true]> (default ∅ (keyFocusGroupsNext gl !! key))]>
                           (keyFocusGroupsNext gl)) gl]> σ)) as (e & He & Hcase).
        -- rewrite lookup_insert_eq. by eexists.
        -- by exists x.
        -- exists e. split; [done |]. destruct Hcase as [(y & Hy & Hy0 & ->) | Hcase]; [| by right].
           left. exists y. split; [by right | done].
Qed.

Lemma keyFocusGroupsPreviousLoop_negative (l : loc) (key : Key) (groups : list FocusGroup) (σ : store) :
  is_Some (σ !! l) → (∃ x, x ∈ groups ∧ x < 0) →
  ∃ e, (keyFocusGroupsPreviousLoop l key groups σ).2 = Some e
       ∧ ((∃ x, x ∈ groups ∧ x < 0 ∧ e = errInvalidGroupForKey x key)
          ∨ (∃ fgs, e = errKeyAssignedNext key fgs)).
Proof.
  revert σ. induction groups as [|g rest IH]; intros σ Hl (x & Hx & Hneg).
  - by apply elem_of_nil in Hx.
  - simpl. destruct (g <? 0) eqn:Hg.
    + eexists. split; [done |]. left. exists g. split; [by left |]. split; [lia | done].
    + destruct Hl as [gl Hgl]. rewrite Hgl.
      destruct (keyFocusGroupsNext gl !! key) as [fgs|].
      * eexists. split; [done |]. right. by eexists.
      * apply elem_of_cons in Hx as [-> | Hx]; [lia |].
        destruct (IH (<[l := with_keyFocusGroupsPrevious
                        (<[key := <[g := true]> (default ∅ (keyFocusGroupsPrevious gl !! key))]>
                           (keyFocusGroupsPrevious gl)) gl]> σ)) as (e & He & Hcase).
        -- rewrite lookup_insert_eq. by eexists.
        -- by exists x.
        -- exists e. split; [done |]. destruct Hcase as [(y & Hy & Hy0 & ->) | Hcase]; [| by right].
           left. exists y. split; [by right | done].
Qed.

(** C9. Let the global options of the container hold key [key] in the
    mapping of the previous direction.  KeyFocusGroupsNext for that key and
    a non-empty list of non-negative groups returns the error that the key
    is already assigned as a KeyFocusGroupsPrevious, and changes nothing.
    The same holds with the two directions exchanged.  And whatever the
    mappings hold, a list with a negative group makes either option return
    an error: the one for the invalid group, or the one for the key that
    is already assigned. *)
Theorem keyFocusGroups_conflicts (key : Key) (c : Container) (σ : store) (gl : globalOptions) :
  globalOf c σ = Some gl →
  (∀ g groups fgs, Forall (λ x, 0 ≤ x) (g :: groups) →
     keyFocusGroupsPrevious gl !! key = Some fgs →
     set (KeyFocusGroupsNext key (g :: groups)) c σ = (c, σ, Some (errKeyAssignedPrevious key fgs)))
  ∧ (∀ g groups fgs, Forall (λ x, 0 ≤ x) (g :: groups) →
       keyFocusGroupsNext gl !! key = Some fgs →
       set (KeyFocusGroupsPrevious key (g :: groups)) c σ = (c, σ, Some (errKeyAssignedNext key fgs)))
  ∧ (∀ groups, (∃ x, x ∈ groups ∧ x < 0) →
       ∃ e, error_of (set (KeyFocusGroupsNext key groups) c σ) = Some e
            ∧ ((∃ x, x ∈ groups ∧ x < 0 ∧ e = errInvalidGroupForKey x key)
               ∨ (∃ fgs, e = errKeyAssignedPrevious key fgs)))
  ∧ (∀ groups, (∃ x, x ∈ groups ∧ x < 0) →
       ∃ e, error_of (set (KeyFocusGroupsPrevious key groups) c σ) = Some e
            ∧ ((∃ x, x ∈ groups ∧ x < 0 ∧ e = errInvalidGroupForKey x key)
               ∨ (∃ fgs, e = errKeyAssignedNext key fgs))).
Proof.
  unfold globalOf. intros Hgl. split; [| split; [| split]].
  - intros g groups fgs Hpos Hkey. apply Forall_cons_1 in Hpos as [Hg _].
    simpl. destruct (g <? 0) eqn:Hg0; [lia |]. by rewrite Hgl, Hkey.
  - intros g groups fgs Hpos Hkey. apply Forall_cons_1 in Hpos as [Hg _].
    simpl. destruct (g <? 0) eqn:Hg0; [lia |]. by rewrite Hgl, Hkey.
  - intros groups Hneg.
    destruct (keyFocusGroupsNextLoop_negative (global (opts c)) key groups σ) as (e & He & Hcase);
      [by eexists | done |].
    exists e. split; [| done]. unfold error_of. simpl.
    by destruct (keyFocusGroupsNextLoop (global (opts c)) key groups σ).
  - intros groups Hneg.
    destruct (keyFocusGroupsPreviousLoop_negative (global (opts c)) key groups σ) as (e & He & Hcase);
      [by eexists | done |].
    exists e. split; [| done]. unfold error_of. simpl.
    by destruct (keyFocusGroupsPreviousLoop (global (opts c)) key groups σ).
Qed.

(** ** Validation of the tree *)

Lemma Container_ind' (P : Container → Prop) :
  (∀ c, from_option P True (first c) → from_option P True (second c) → P c) →
  ∀ c, P c.
Proof.
  intros HP. fix IH 1. intros [[f|] [s|] o]; apply HP; simpl; try exact I; apply IH.
Qed.

Lemma visitAll_app {S : Type} (visit : Container → S → S * option error)
    (xs ys : list Container) (s : S) :
  visitAll visit (xs ++ ys) s =
  match visitAll visit xs s with
  | (s', Some err) => (s', Some err)
  | (s', None) => visitAll visit ys s'
  end.
Proof.
  revert s. induction xs as [|x xs IH]; intros s; simpl; [done |].
  destruct (visit x s) as [s' [e|]]; [done | apply IH].
Qed.

Lemma preOrder_stopped {S : Type} (visit : Container → S → S * option error)
    (c : Container) (e : error) (s : S) :
  preOrder c (Some e) visit s = (s, Some e).
Proof. by destruct c. Qed.

(** The walker visits the containers in the order of [nodes]. *)
Lemma preOrder_nodes {S : Type} (visit : Container → S → S * option error) (c : Container) :
  ∀ s, preOrder c None visit s = visitAll visit (nodes c) s.
Proof.
  induction c as [c IHf IHs] using Container_ind'. intros s.
  rewrite nodes_unfold. destruct c as [f sd o]. simpl in *.
  destruct (visit (mkContainer f sd o) s) as [s' [e|]]; [done |].
  rewrite visitAll_app.
  destruct f as [f|]; simpl in *.
  - rewrite IHf. destruct (visitAll visit (nodes f) s') as [s1 [e1|]].
    + destruct sd as [sd|]; [apply preOrder_stopped | done].
    + destruct sd as [sd|]; simpl in *; [apply IHs | done].
  - destruct sd as [sd|]; simpl in *; [apply IHs | done].
Qed.

Lemma validateOptions_nodes (c : Container) :
  validateOptions c = (visitAll validateNode (nodes c) ∅).2.
Proof.
  unfold validateOptions. fold validateNode. rewrite preOrder_nodes.
  by destruct (visitAll validateNode (nodes c) ∅).
Qed.

Lemma validateNode_ok (n : Container) (seen seen' : gmap string bool) :
  validateNode n seen = (seen', None) →
  validateSplits n = None
  ∧ ((id (opts n) = "" ∧ seen' = seen)
     ∨ (id (opts n) ≠ "" ∧ seen !! id (opts n) ≠ Some true
        ∧ seen' = <[id (opts n) := true]> seen)).
Proof.
  unfold validateNode, validateIds.
  destruct (String.eqb (id (opts n)) "") eqn:Hid.
  - apply String.eqb_eq in Hid. intros [= <- ->]. by split; [| left].
  - apply String.eqb_neq in Hid.
    destruct (seen !! id (opts n)) as [[|]|] eqn:Hseen; simpl; try done.
    + intros [= <- ->]. split; [done |]. by right.
    + intros [= <- ->]. split; [done |]. by right.
Qed.

Lemma validateNode_error (n : Container) (seen seen' : gmap string bool) (e : error) :
  validateNode n seen = (seen', Some e) →
  (e = errDuplicateID (id (opts n)) ∧ id (opts n) ≠ "" ∧ seen !! id (opts n) = Some true)
  ∨ validateSplits n = Some e.
Proof.
  unfold validateNode, validateIds.
  destruct (String.eqb (id (opts n)) "") eqn:Hid.
  - intros [= <- ->]. by right.
  - apply String.eqb_neq in Hid.
    destruct (seen !! id (opts n)) as [[|]|] eqn:Hseen; simpl.
    + intros [= <- <-]. by left.
    + intros [= <- ->]. by right.
    + intros [= <- ->]. by right.
Qed.

Lemma validateSplits_error (n : Container) (e : error) :
  validateSplits n = Some e ↔
  (DefaultSplitFixed < splitFixed (opts n) ∧ splitPercent (opts n) ≠ DefaultSplitPercent
   ∧ e = errBothSplits (splitFixed (opts n)) (splitPercent (opts n))).
Proof.
  unfold validateSplits.
  destruct (DefaultSplitFixed <? splitFixed (opts n)) eqn:Hf,
    (splitPercent (opts n) =? DefaultSplitPercent) eqn:Hp; simpl;
    split; try done; try (intros (? & ? & ?); lia).
  - intros [= <-]. split; [lia |]. split; [lia | done].
  - by intros (_ & _ & ->).
Qed.

(** A node that fails on its own makes the walk fail. *)
Lemma visitAll_node_fails (l : list Container) (seen : gmap string bool) (n : Container) :
  n ∈ l → (∀ seen0, ∃ e, (validateNode n seen0).2 = Some e) →
  ∃ e, (visitAll validateNode l seen).2 = Some e.
Proof.
  revert seen. induction l as [|a l IH]; intros seen Hn Hfail.
  - by apply elem_of_nil in Hn.
  - simpl. destruct (validateNode a seen) as [seen' [e|]] eqn:Ha; [by eexists |].
    apply elem_of_cons in Hn as [-> | Hn]; [| by apply IH].
    destruct (Hfail seen) as [e He]. rewrite Ha in He. done.
Qed.

(** An identifier already seen makes the walk fail at the latest when it
    occurs again. *)
Lemma visitAll_seen_fails (l : list Container) (seen : gmap string bool) (m : Container) :
  m ∈ l → id (opts m) ≠ "" → seen !! id (opts m) = Some true →
  ∃ e, (visitAll validateNode l seen).2 = Some e.
Proof.
  revert seen. induction l as [|a l IH]; intros seen Hm Hid Hseen.
  - by apply elem_of_nil in Hm.
  - simpl. destruct (validateNode a seen) as [seen' [e|]] eqn:Ha; [by eexists |].
    apply validateNode_ok in Ha as [_ [[Ha ->] | (Ha & Hnot & ->)]].
    + apply elem_of_cons in Hm as [-> | Hm]; [done | by apply IH].
    + apply elem_of_cons in Hm as [-> | Hm]; [done |].
      apply IH; [done | done |].
      destruct (decide (id (opts a) = id (opts m))) as [-> | Hne].
      * by rewrite lookup_insert_eq.
      * by rewrite lookup_insert_ne.
Qed.

Lemma visitAll_duplicate_fails (l : list Container) (seen : gmap string bool)
    (i j : nat) (n m : Container) :
  (i < j)%nat → l !! i = Some n → l !! j = Some m →
  id (opts n) = id (opts m) → id (opts n) ≠ "" →
  ∃ e, (visitAll validateNode l seen).2 = Some e.
Proof.
  revert seen i j. induction l as [|a l IH]; intros seen i j Hij Hi Hj Heq Hid; [done |].
  simpl. destruct (validateNode a seen) as [seen' [e|]] eqn:Ha; [by eexists |].
  destruct j as [|j]; [lia |]. simpl in Hj.
  destruct i as [|i]; simpl in Hi.
  - injection Hi as ->.
    apply validateNode_ok in Ha as [_ [[Ha _] | (_ & _ & ->)]]; [done |].
    apply (visitAll_seen_fails l _ m).
    + by eapply list_elem_of_lookup_2.
    + congruence.
    + rewrite Heq. by rewrite lookup_insert_eq.
  - apply (IH seen' i j); [lia | done..].
Qed.

Lemma visitAll_duplicate_error (l : list Container) (seen : gmap string bool) (ident : string) :
  (visitAll validateNode l seen).2 = Some (errDuplicateID ident) →
  ident ≠ ""
  ∧ ∃ j m, l !! j = Some m ∧ id (opts m) = ident
      ∧ (seen !! ident = Some true
         ∨ ∃ i n, (i < j)%nat ∧ l !! i = Some n ∧ id (opts n) = ident).
Proof.
  revert seen. induction l as [|a l IH]; intros seen; simpl; [done |].
  destruct (validateNode a seen) as [seen' [e|]] eqn:Ha; simpl.
  - intros [= ->].
    apply validateNode_error in Ha as [(Heq & Hid & Hseen) | Hsplit].
    + injection Heq as ->. split; [done |]. exists 0%nat, a. by split; [| split; [| left]].
    + apply validateSplits_error in Hsplit as (_ & _ & ?). done.
  - intros Hl. destruct (IH seen' Hl) as (Hid & j & m & Hj & Hm & Hcase).
    split; [done |]. exists (S j), m. split; [done |]. split; [done |].
    apply validateNode_ok in Ha as [_ [[Ha ->] | (Ha & Hnot & ->)]].
    + destruct Hcase as [Hseen | (i & n & Hi & Hn & Hnid)]; [by left |].
      right. exists (S i), n. split; [lia | done].
    + destruct Hcase as [Hseen | (i & n & Hi & Hn & Hnid)].
      * destruct (decide (id (opts a) = ident)) as [Heq | Hne].
        -- right. exists 0%nat, a. split; [lia | done].
        -- left. by rewrite lookup_insert_ne in Hseen.
      * right. exists (S i), n. split; [lia | done].
Qed.

(** C4. Validation of the tree fails whenever two distinct containers (two
    positions of the pre-order walk) carry the same non-empty identifier.
    A failure for a duplicate identifier always names a non-empty
    identifier that two distinct containers carry; so a tree in which
    every identifier is empty never fails for a duplicate, however many
    containers it has. *)
Theorem duplicate_ids_fail_validation (c : Container) :
  (∀ i j n m, i ≠ j → nodes c !! i = Some n → nodes c !! j = Some m →
     id (opts n) = id (opts m) → id (opts n) ≠ "" →
     ∃ e, validateOptions c = Some e)
  ∧ (∀ ident, validateOptions c = Some (errDuplicateID ident) →
       ident ≠ ""
       ∧ ∃ i j n m, i ≠ j ∧ nodes c !! i = Some n ∧ nodes c !! j = Some m
           ∧ id (opts n) = ident ∧ id (opts m) = ident)
  ∧ ((∀ n, n ∈ nodes c → id (opts n) = "") →
       ∀ ident, validateOptions c ≠ Some (errDuplicateID ident)).
Proof.
  assert (Hdup : ∀ ident, validateOptions c = Some (errDuplicateID ident) →
            ident ≠ ""
            ∧ ∃ i j n m, i ≠ j ∧ nodes c !! i = Some n ∧ nodes c !! j = Some m
                ∧ id (opts n) = ident ∧ id (opts m) = ident).
  { intros ident. rewrite validateOptions_nodes. intros Hv.
    apply visitAll_duplicate_error in Hv as (Hid & j & m & Hj & Hm & [Hseen | Hcase]).
    - by rewrite lookup_empty in Hseen.
    - destruct Hcase as (i & n & Hi & Hn & Hnid). split; [done |].
      exists i, j, n, m. split; [lia | done]. }
  split; [| split; [exact Hdup |]].
  - intros i j n m Hij Hi Hj Heq Hid. rewrite validateOptions_nodes.
    destruct (decide (i < j)%nat).
    + by apply (visitAll_duplicate_fails _ _ i j n m).
    + apply (visitAll_duplicate_fails _ _ j i m n); [lia | done | done | done | congruence].
  - intros Hempty ident Hv. destruct (Hdup ident Hv) as (Hid & i & j & n & m & _ & Hi & _ & Hn & _).
    apply list_elem_of_lookup_2 in Hi. rewrite (Hempty n Hi) in Hn. done.
Qed.

(** ** Exclusive representations *)

Lemma validateOptions_split_conflict (c n : Container) :
  n ∈ nodes c → 0 ≤ splitFixed (opts n) → splitPercent (opts n) ≠ DefaultSplitPercent →
  ∃ e, validateOptions c = Some e.
Proof.
  intros Hn Hf Hp. rewrite validateOptions_nodes.
  apply (visitAll_node_fails _ _ n Hn). intros seen0.
  unfold validateNode. destruct (validateIds n seen0) as [seen' [e|]]; [by eexists |].
  simpl. exists (errBothSplits (splitFixed (opts n)) (splitPercent (opts n))).
  apply validateSplits_error. unfold DefaultSplitFixed. split; [lia | done].
Qed.

Lemma splitBody_percent_and_fixed (st : splitType) (l r : list Option) (perc cells : Z)
    (c : Container) (σ : store) :
  0 < perc < 100 → 0 ≤ cells →
  splitPercent (opts (container_of (splitBody st l r [SplitPercent perc; SplitFixed cells] c σ))) = perc
  ∧ splitFixed (opts (container_of (splitBody st l r [SplitPercent perc; SplitFixed cells] c σ))) = cells.
Proof.
  intros Hp Hc. rewrite split_opts. simpl.
  destruct (perc <=? 0) eqn:H1; [lia |]. destruct (100 <=? perc) eqn:H2; [lia |]. simpl.
  destruct (cells <? 0) eqn:H3; [lia |]. done.
Qed.

(** C2, as the code has it.  The setter of a side in cells, given a value
    it accepts, returns an error and changes nothing when the percentage
    stored for that side is greater than zero, and the setter of a side as
    a percentage does when the cells stored for that side are greater than
    zero; in particular the second of two accepted setters for one side
    fails when the first stored a value greater than zero.  Validation of
    the tree returns an error when some container has a fixed split value
    that is set (0 or more) and a split percentage other than the default
    of 50; such is the container that a split with SplitPercent(perc) and
    SplitFixed(cells) leaves, for all values the two accept with perc
    other than 50. *)
Theorem exclusive_representations (k : spacing) (s : side) (v : Z) (c : Container) (σ : store) :
  (0 ≤ v → 0 < percentOf k s (opts c) →
     ∃ e, set (cellsOption k s v) c σ = (c, σ, Some e))
  ∧ (0 ≤ v ≤ 100 → 0 < cellsOf k s (opts c) →
       ∃ e, set (percentOption k s v) c σ = (c, σ, Some e))
  ∧ (∀ perc, 0 ≤ v → 0 < perc →
       error_of (set (percentOption k s perc) c σ) = None →
       ∃ e, error_of (applyOptions set c [percentOption k s perc; cellsOption k s v] σ) = Some e)
  ∧ (∀ cells, 0 ≤ v ≤ 100 → 0 < cells →
       error_of (set (cellsOption k s cells) c σ) = None →
       ∃ e, error_of (applyOptions set c [cellsOption k s cells; percentOption k s v] σ) = Some e)
  ∧ (∀ n, n ∈ nodes c → 0 ≤ splitFixed (opts n) →
       splitPercent (opts n) ≠ DefaultSplitPercent →
       ∃ e, validateOptions c = Some e)
  ∧ (∀ l r perc cells, 0 < perc < 100 → perc ≠ DefaultSplitPercent → 0 ≤ cells →
       (∃ e, validateOptions (container_of
               (set (SplitVertical l r [SplitPercent perc; SplitFixed cells]) c σ)) = Some e)
       ∧ (∃ e, validateOptions (container_of
                 (set (SplitHorizontal l r [SplitPercent perc; SplitFixed cells]) c σ)) = Some e)).
Proof.
  split; [| split; [| split; [| split; [| split]]]].
  - intros Hv Hp. destruct k, s; simpl in *;
      (destruct (v <? 0) eqn:H1; [lia |]);
      match goal with |- context [0 <? ?x] => destruct (0 <? x) eqn:H2; [by eexists | lia] end.
  - intros Hv Hp. destruct k, s; simpl in *;
      (destruct (v <? 0) eqn:H1; [lia |]); (destruct (100 <? v) eqn:H3; [lia |]); simpl;
      match goal with |- context [0 <? ?x] => destruct (0 <? x) eqn:H2; [by eexists | lia] end.
  - intros perc Hv Hp. unfold error_of.
    destruct k, s; simpl;
      repeat (match goal with
              | |- context [?a <? ?b] => destruct (a <? b) eqn:?; simpl; try done; try lia
              end);
      intros _; by eexists.
  - intros cells Hv Hp. unfold error_of.
    destruct k, s; simpl;
      repeat (match goal with
              | |- context [?a <? ?b] => destruct (a <? b) eqn:?; simpl; try done; try lia
              end);
      intros _; by eexists.
  - intros n. apply validateOptions_split_conflict.
  - intros l r perc cells Hperc Hne Hcells.
    rewrite (proj1 (set_split l r _ c σ)), (proj2 (set_split l r _ c σ)).
    split.
    + destruct (splitBody_percent_and_fixed splitTypeVertical l r perc cells c σ Hperc Hcells)
        as [Hp Hf].
      eapply validateOptions_split_conflict.
      * rewrite nodes_unfold. apply list_elem_of_here.
      * by rewrite Hf.
      * by rewrite Hp.
    + destruct (splitBody_percent_and_fixed splitTypeHorizontal l r perc cells c σ Hperc Hcells)
        as [Hp Hf].
      eapply validateOptions_split_conflict.
      * rewrite nodes_unfold. apply list_elem_of_here.
      * by rewrite Hf.
      * by rewrite Hp.
Qed.

End facts.

(** * The facts at concrete containers *)

Section examples.
#[local] Existing Instance exampleExternals.

(** C2 does not hold for every accepted value: a percentage of 0 is a value
    that MarginTopPercent accepts, and after it MarginTop(5) is accepted as
    well; likewise PaddingLeftPercent(10) after PaddingLeft(0).  The split
    options SplitPercent(50) and SplitFixed(3) are both accepted on one
    container, and validation of the resulting tree succeeds. *)
Lemma both_representations_accepted :
  error_of (applyOptions set exampleRoot [MarginTopPercent 0; MarginTop 5] exampleStore) = None
  ∧ error_of (applyOptions set exampleRoot [PaddingLeft 0; PaddingLeftPercent 10] exampleStore) = None
  ∧ error_of (applyOptions set exampleRoot
                [SplitVertical [] [] [SplitPercent 50; SplitFixed 3]] exampleStore) = None
  ∧ validateOptions (container_of (applyOptions set exampleRoot
                       [SplitVertical [] [] [SplitPercent 50; SplitFixed 3]] exampleStore)) = None.
Proof. vm_compute. done. Qed.

(** The container after MarginTopPercent(10), after PaddingRight(2), and
    after a split with SplitPercent(40) and SplitFixed(3). *)
Lemma exclusive_representations_witness :
  (∃ e, set (MarginTop 5) (container_of (set (MarginTopPercent 10) exampleRoot exampleStore)) exampleStore
        = (container_of (set (MarginTopPercent 10) exampleRoot exampleStore), exampleStore, Some e))
  ∧ (∃ e, set (PaddingRightPercent 7) (container_of (set (PaddingRight 2) exampleRoot exampleStore)) exampleStore
          = (container_of (set (PaddingRight 2) exampleRoot exampleStore), exampleStore, Some e))
  ∧ (∃ e, error_of (applyOptions set exampleRoot [MarginTopPercent 10; MarginTop 5] exampleStore) = Some e)
  ∧ (∃ e, error_of (applyOptions set exampleRoot [MarginTop 5; MarginTopPercent 10] exampleStore) = Some e)
  ∧ (∃ e, validateOptions (container_of (set (SplitVertical [] [] [SplitPercent 40; SplitFixed 3])
                                           exampleRoot exampleStore)) = Some e)
  ∧ (∃ e, validateOptions (container_of (set (SplitHorizontal [] [] [SplitPercent 60; SplitFixed 0])
                                           exampleRoot exampleStore)) = Some e).
Proof.
  split; [| split; [| split; [| split; [| split]]]].
  - apply (proj1 (exclusive_representations Margin Top 5 _ exampleStore)); [lia | reflexivity].
  - apply (proj1 (proj2 (exclusive_representations Padding Right 7 _ exampleStore)));
      [lia | reflexivity].
  - apply (proj1 (proj2 (proj2 (exclusive_representations Margin Top 5 exampleRoot exampleStore))) 10);
      [lia | lia | reflexivity].
  - apply (proj1 (proj2 (proj2 (proj2
             (exclusive_representations Margin Top 10 exampleRoot exampleStore)))) 5);
      [lia | lia | reflexivity].
  - apply (proj1 (proj2 (proj2 (proj2 (proj2
             (exclusive_representations Margin Top 0 _ exampleStore)))))
             (container_of (set (SplitVertical [] [] [SplitPercent 40; SplitFixed 3])
                              exampleRoot exampleStore))).
    + rewrite nodes_unfold. apply list_elem_of_here.
    + vm_compute. discriminate.
    + vm_compute. discriminate.
  - assert (Hne : 60 ≠ DefaultSplitPercent).
    { intros Heq. vm_compute in Heq. discriminate Heq. }
    exact (proj2 (proj2 (proj2 (proj2 (proj2 (proj2
             (exclusive_representations Margin Top 0 exampleRoot exampleStore)))))
             [] [] 60 0 ltac:(lia) Hne ltac:(lia))).
Defined.

(** A container that holds a widget and is then split, the second child
    failing on an empty identifier. *)
Lemma children_and_widget_exclusive_witness :
  widgetsAreLeaves exampleRoot
  ∧ widgetsAreLeaves
      (container_of (applyOptions set exampleRoot
         [PlaceWidget (Some 1%nat); SplitVertical [PlaceWidget (Some 2%nat)] [ID ""] []]
         exampleStore))
  ∧ ¬ (hasChildren exampleRoot ∧ hasWidget exampleRoot)
  ∧ properTree
      (container_of (applyOptions set exampleRoot
         [SplitVertical [PlaceWidget (Some 1%nat)] [PlaceWidget (Some 2%nat)] []] exampleStore)).
Proof.
  assert (H0 : widgetsAreLeaves exampleRoot).
  { unfold widgetsAreLeaves. rewrite nodes_unfold. simpl.
    constructor; [| constructor]. intros [w Hw]. discriminate Hw. }
  split; [exact H0 |]. split; [| split].
  - apply (proj1 (proj2 children_and_widget_exclusive)). exact H0.
  - apply (proj1 (proj2 (proj2 children_and_widget_exclusive)) exampleRoot exampleRoot H0).
    rewrite nodes_unfold. apply list_elem_of_here.
  - apply (proj2 (proj2 (proj2 (proj2 (proj2 (proj2 (proj2 children_and_widget_exclusive))))))).
    + apply properTree_unfold. simpl. split; [| done]. split; [| done].
      intros [w Hw]. discriminate Hw.
    + reflexivity.
Defined.

(** A tree whose two children are both named "a". *)
Lemma duplicate_ids_fail_validation_witness :
  ∃ e, validateOptions
         (container_of (set (SplitVertical [ID "a"] [ID "a"] []) exampleRoot exampleStore)) = Some e.
Proof.
  eapply (proj1 (duplicate_ids_fail_validation
            (container_of (set (SplitVertical [ID "a"] [ID "a"] []) exampleRoot exampleStore)))
            1%nat 2%nat).
  - lia.
  - reflexivity.
  - reflexivity.
  - reflexivity.
  - intros Hid. vm_compute in Hid. discriminate Hid.
Defined.

(** MarginTop(1) succeeds, MarginTop(-1) fails, MarginLeft(2) is not
    applied: the top margin is 1 and the left margin is still 0. *)
Lemma applyOptions_in_order_until_error_witness :
  applyOptions set exampleRoot ([MarginTop 1] ++ MarginTop (-1) :: [MarginLeft 2]) exampleStore
  = (container_of (set (MarginTop 1) exampleRoot exampleStore), exampleStore,
     Some (errInvalidCells "MarginTop" (-1)))
  ∧ margin (opts (container_of (set (MarginTop 1) exampleRoot exampleStore)))
    = margin.mk 1 0 0 0 0 0 0 0.
Proof.
  split; [| reflexivity].
  apply (proj2 (proj2 (proj2 (applyOptions_in_order_until_error set)))
           [MarginTop 1] (MarginTop (-1)) [MarginLeft 2] exampleRoot exampleStore
           (container_of (set (MarginTop 1) exampleRoot exampleStore)) exampleStore);
    reflexivity.
Defined.

(** The list [3, 2, 1] against the set {1, 2}. *)
Lemma firstMatching_first_declared_witness :
  firstMatching (<[1 := true]> (<[2 := true]> ∅)) [3; 2; 1] = (true, 2).
Proof.
  apply (proj1 (firstMatching_first_declared _ [3; 2; 1])).
  exists [3], [1]. split; [reflexivity |]. split; [reflexivity |].
  intros x Hx. apply list_elem_of_singleton in Hx. subst x.
  intros Hin. vm_compute in Hin. discriminate Hin.
Defined.

(** A split container: a key set through the first child is read through
    the root. *)
Lemma child_copies_inherited_shares_global_witness :
  let r := set (SplitVertical [] [] []) exampleRoot exampleStore in
  sharesGlobal (container_of r)
  ∧ ∀ child, first (container_of r) = Some child →
      globalOf (container_of r) (store_of (set (KeyFocusNext 9) child (store_of r)))
      = Some (mkGlobalOptions (Some 9) None ∅ ∅).
Proof.
  intros r.
  assert (Hr : sharesGlobal (container_of r)).
  { apply (proj1 (proj2 (proj2 (proj2 child_copies_inherited_shares_global)))
             exampleRoot exampleStore [SplitVertical [] [] []]).
    apply (proj1 (proj2 (proj2 child_copies_inherited_shares_global)) ∅). }
  split; [exact Hr |].
  intros child Hchild.
  assert (Hn : child ∈ nodes (container_of r)).
  { rewrite nodes_unfold, Hchild. simpl. apply list_elem_of_further.
    rewrite nodes_unfold. apply list_elem_of_here. }
  assert (Hm : container_of r ∈ nodes (container_of r)).
  { rewrite nodes_unfold. apply list_elem_of_here. }
  assert (Hgl : globalOf child (store_of r) = Some (mkGlobalOptions None None ∅ ∅)).
  { injection Hchild as <-. reflexivity. }
  exact (proj1 (proj2 (proj2 (proj2 (proj2 (proj2 child_copies_inherited_shares_global))))
                  (container_of r) child (container_of r) (store_of r)
                  (mkGlobalOptions None None ∅ ∅) 9 Hr Hn Hm Hgl)).
Defined.

(** Key 7 is first given to KeyFocusGroupsPrevious, then to
    KeyFocusGroupsNext; and a list with the group -1. *)
Lemma keyFocusGroups_conflicts_witness :
  let σ1 := store_of (set (KeyFocusGroupsPrevious 7 [1]) exampleRoot exampleStore) in
  set (KeyFocusGroupsNext 7 [2; 3]) exampleRoot σ1
  = (exampleRoot, σ1, Some (errKeyAssignedPrevious 7 {[1 := true]}))
  ∧ ∃ e, error_of (set (KeyFocusGroupsNext 8 [2; -1]) exampleRoot σ1) = Some e.
Proof.
  intros σ1.
  assert (Hgl : globalOf exampleRoot σ1 = Some (mkGlobalOptions None None ∅ {[7 := {[1 := true]}]})).
  { vm_compute. reflexivity. }
  split.
  - apply (proj1 (keyFocusGroups_conflicts (H := exampleExternals) 7 exampleRoot σ1 _ Hgl)
             2 [3] {[1 := true]}).
    + repeat constructor; lia.
    + vm_compute. reflexivity.
  - destruct (proj1 (proj2 (proj2
                (keyFocusGroups_conflicts (H := exampleExternals) 8 exampleRoot σ1 _ Hgl))) [2; -1])
      as (e & He & _).
    + exists (-1). split; [| lia]. apply list_elem_of_further, list_elem_of_here.
    + by exists e.
Defined.

End examples.

(** * Further facts about the options *)

Section further_facts.
Context `{Externals}.


Lemma isSplit_false (o : Option) :
  isSplit o = false →
  (∀ l r sopts, o ≠ SplitVertical l r sopts) ∧ (∀ t b sopts, o ≠ SplitHorizontal t b sopts).
Proof. by destruct o. Qed.

Lemma not_split_isSplit (o : Option) :
  (∀ l r sopts, o ≠ SplitVertical l r sopts) →
  (∀ t b sopts, o ≠ SplitHorizontal t b sopts) → isSplit o = false.
Proof. intros HV HH. destruct o; try done; [by destruct (HV l r sopts) | by destruct (HH t b sopts)]. Qed.

(** ** The shape of a split *)

(** The container after a split: its options are those the split options
    left, and each child is the child it had or a new one, made from those
    options and the list of options for that child. *)
Lemma splitBody_shape (st : splitType) (l r : list Option) (sopts : list SplitOption)
    (c : Container) (σ : store) :
  let o' := (setSplits sopts (with_widget None (with_split st (opts c)))).1 in
  let res := splitBody st l r sopts c σ in
  opts (container_of res) = o'
  ∧ (first (container_of res) = first c
     ∨ ∃ σ1, first (container_of res) =
         Some (container_of (applyOptions set (mkContainer None None (newOptions (Some o') σ1).1)
                               l (newOptions (Some o') σ1).2)))
  ∧ (second (container_of res) = second c
     ∨ ∃ σ2, second (container_of res) =
         Some (container_of (applyOptions set (mkContainer None None (newOptions (Some o') σ2).1)
                               r (newOptions (Some o') σ2).2))).
Proof.
  cbv zeta. split; [apply split_opts |].
  unfold splitBody. cbv zeta.
  set (c1 := with_opts (with_widget None (with_split st (opts c))) c).
  change (with_widget None (with_split st (opts c))) with (opts c1).
  destruct (setSplits sopts (opts c1)) as [o' [e|]]; [by split; left |].
  cbn [fst snd]. rewrite createFirst_eq. cbv zeta.
  change (opts (with_opts o' c1)) with o'.
  destruct (applyOptions set (mkContainer None None (newOptions (Some o') σ).1)
              l (newOptions (Some o') σ).2) as [[ch1 σ1] [e|]] eqn:H1.
  - split; [right | by left]. exists σ. by rewrite H1.
  - change (error_of (ch1, σ1, None)) with (@None error). cbv iota beta.
    rewrite createSecond_eq. cbv zeta.
    split; right; [exists σ; by rewrite H1 | by exists σ1].
Qed.

(** ** Invariants of the options of every node *)

Section options_invariant.
Variable Q : options → Prop.
Hypothesis Q_child : ∀ p σ, Q p → Q (newOptions (Some p) σ).1.
Hypothesis Q_local : ∀ o c σ, isSplit o = false → Q (opts c) → Q (opts (container_of (set o c σ))).
Hypothesis Q_split : ∀ st sopts o, Q o → Q (setSplits sopts (with_widget None (with_split st o))).1.

Local Abbreviation allQ c := (Forall (λ n, Q (opts n)) (nodes c)).

Lemma allQ_unfold (c : Container) :
  allQ c ↔ Q (opts c) ∧ from_option (λ f, allQ f) True (first c)
           ∧ from_option (λ s, allQ s) True (second c).
Proof.
  rewrite nodes_unfold, Forall_cons, Forall_app.
  by destruct (first c), (second c); simpl; rewrite ?Forall_nil.
Qed.

Lemma split_allQ (st : splitType) (l r : list Option) (sopts : list SplitOption)
    (c : Container) (σ : store) :
  Forall (λ o, ∀ c σ, allQ c → allQ (container_of (set o c σ))) l →
  Forall (λ o, ∀ c σ, allQ c → allQ (container_of (set o c σ))) r →
  allQ c → allQ (container_of (splitBody st l r sopts c σ)).
Proof.
  intros Hl Hr Hc.
  apply allQ_unfold in Hc as (Hroot & Hf & Hs).
  destruct (splitBody_shape st l r sopts c σ) as (Ho & Hfirst & Hsecond).
  assert (Ho' : Q (setSplits sopts (with_widget None (with_split st (opts c)))).1)
    by by apply Q_split.
  assert (Hchild : ∀ os σ1,
            Forall (λ o, ∀ c σ, allQ c → allQ (container_of (set o c σ))) os →
            allQ (container_of (applyOptions set
                    (mkContainer None None
                       (newOptions (Some (setSplits sopts (with_widget None (with_split st (opts c)))).1) σ1).1)
                    os
                    (newOptions (Some (setSplits sopts (with_widget None (with_split st (opts c)))).1) σ1).2))).
  { intros os σ1 Hos.
    apply (applyOptions_preserves set (λ c, allQ c) os Hos).
    apply allQ_unfold. simpl. split; [by apply Q_child | done]. }
  apply allQ_unfold. rewrite Ho. split; [done |]. split.
  - destruct Hfirst as [-> | [σ1 ->]]; [done | simpl; by apply Hchild].
  - destruct Hsecond as [-> | [σ2 ->]]; [done | simpl; by apply Hchild].
Qed.

(** Every option keeps [Q] true of the options of every node, whatever it
    returns. *)
Lemma set_allQ (o : Option) : ∀ c σ, allQ c → allQ (container_of (set o c σ)).
Proof.
  induction o as [l r sopts Hl Hr | t b sopts Ht Hb | o HV HH] using Option_ind'.
  - intros c σ Hc. rewrite (proj1 (set_split l r sopts c σ)). by apply split_allQ.
  - intros c σ Hc. rewrite (proj2 (set_split t b sopts c σ)). by apply split_allQ.
  - intros c σ Hc.
    pose proof (Q_local o c σ (not_split_isSplit o HV HH)) as Hq.
    destruct (set_nonsplit_shape o c σ HV HH) as [_ [(Hf & Hs & _) | (Hf & Hs)]];
      apply allQ_unfold in Hc as (Hroot & Hcf & Hcs); apply allQ_unfold;
      rewrite Hf, Hs; by split; [apply Hq |].
Qed.

Lemma applyOptions_allQ (os : list Option) (c : Container) (σ : store) :
  allQ c → allQ (container_of (applyOptions set c os σ)).
Proof.
  apply (applyOptions_preserves set (λ c, allQ c)).
  apply Forall_forall. intros o _. apply set_allQ.
Qed.

End options_invariant.

(** ** What the options do to the store *)

Section store_relation.
Variable R : loc → store → store → Prop.
Hypothesis R_refl : ∀ g σ, R g σ σ.
Hypothesis R_trans : ∀ g σ1 σ2 σ3, R g σ1 σ2 → R g σ2 σ3 → R g σ1 σ3.
Hypothesis R_alloc : ∀ g p σ, R g σ (newOptions p σ).2.
Hypothesis R_local : ∀ o c σ, isSplit o = false → R (global (opts c)) σ (store_of (set o c σ)).

Lemma applyOptions_R (os : list Option) :
  Forall (λ o, ∀ c σ, R (global (opts c)) σ (store_of (set o c σ))) os →
  ∀ c σ, R (global (opts c)) σ (store_of (applyOptions set c os σ)).
Proof.
  induction 1 as [|o os Ho _ IH]; intros c σ; simpl; [apply R_refl |].
  specialize (Ho c σ). pose proof (set_keeps_global o c σ) as Hg.
  destruct (set o c σ) as [[c1 σ1] [e|]]; unfold store_of, container_of in *; simpl in *;
    [exact Ho |].
  eapply R_trans; [exact Ho |]. rewrite <- Hg. apply IH.
Qed.

Lemma child_R (os : list Option) (p : options) (σ : store) :
  Forall (λ o, ∀ c σ, R (global (opts c)) σ (store_of (set o c σ))) os →
  R (global p) σ
    (store_of (applyOptions set (mkContainer None None (newOptions (Some p) σ).1)
                 os (newOptions (Some p) σ).2)).
Proof.
  intros Hos. eapply R_trans; [apply (R_alloc _ (Some p)) |].
  by apply (applyOptions_R os Hos (mkContainer None None (newOptions (Some p) σ).1)).
Qed.

Lemma split_R (st : splitType) (l r : list Option) (sopts : list SplitOption)
    (c : Container) (σ : store) :
  Forall (λ o, ∀ c σ, R (global (opts c)) σ (store_of (set o c σ))) l →
  Forall (λ o, ∀ c σ, R (global (opts c)) σ (store_of (set o c σ))) r →
  R (global (opts c)) σ (store_of (splitBody st l r sopts c σ)).
Proof.
  intros Hl Hr. unfold splitBody. cbv zeta.
  set (c1 := with_opts (with_widget None (with_split st (opts c))) c).
  destruct (setSplits_frame sopts (opts c1)) as [_ Hg].
  destruct (setSplits sopts (opts c1)) as [o' [e|]]; [apply R_refl |].
  cbn [fst snd] in Hg. change (global (opts c1)) with (global (opts c)) in Hg.
  rewrite createFirst_eq. cbv zeta. change (opts (with_opts o' c1)) with o'.
  pose proof (child_R l o' σ Hl) as H1. rewrite Hg in H1.
  destruct (applyOptions set (mkContainer None None (newOptions (Some o') σ).1)
              l (newOptions (Some o') σ).2) as [[ch1 σ1] [e|]]; [exact H1 |].
  change (error_of (ch1, σ1, None)) with (@None error). cbv iota beta.
  rewrite createSecond_eq. cbv zeta.
  change (opts (with_first (Some (container_of (ch1, σ1, @None error))) (with_opts o' c1))) with o'.
  change (store_of (ch1, σ1, @None error)) with σ1 in *.
  pose proof (child_R r o' σ1 Hr) as H2. rewrite Hg in H2.
  eapply R_trans; [exact H1 |]. exact H2.
Qed.

(** Every option takes the store to one related to it. *)
Lemma set_R (o : Option) : ∀ c σ, R (global (opts c)) σ (store_of (set o c σ)).
Proof.
  induction o as [l r sopts Hl Hr | t b sopts Ht Hb | o HV HH] using Option_ind'.
  - intros c σ. rewrite (proj1 (set_split l r sopts c σ)). by apply split_R.
  - intros c σ. rewrite (proj2 (set_split t b sopts c σ)). by apply split_R.
  - intros c σ. apply R_local. by apply not_split_isSplit.
Qed.

End store_relation.

(** ** The setters of margin and padding *)

(** Case analysis on the integer comparisons of a goal, each left as a
    fact about the integers. *)
Ltac zcases :=
  repeat match goal with
  | |- context [?a <? ?b] => destruct (Z.ltb_spec a b)
  | |- context [?a <=? ?b] => destruct (Z.leb_spec a b)
  | |- context [?a =? ?b] => destruct (Z.eqb_spec a b)
  end.

(** X1. A setter of a side in cells (MarginTop, ..., PaddingLeft) succeeds
    exactly when its value is not negative and the percentage stored for
    its own side is not greater than zero.  Then it stores the value in
    the cells of its own side and changes nothing else: no other side, no
    percentage, no other field of the options, no child and not the store.
    Otherwise it returns an error and leaves the container as it was. *)
Theorem cells_setter_spec (k : spacing) (s : side) (v : Z) (c : Container) (σ : store) :
  (0 ≤ v ∧ percentOf k s (opts c) ≤ 0 →
     error_of (set (cellsOption k s v) c σ) = None
     ∧ store_of (set (cellsOption k s v) c σ) = σ
     ∧ first (container_of (set (cellsOption k s v) c σ)) = first c
     ∧ second (container_of (set (cellsOption k s v) c σ)) = second c
     ∧ sameButSpacing (opts c) (opts (container_of (set (cellsOption k s v) c σ)))
     ∧ cellsOf k s (opts (container_of (set (cellsOption k s v) c σ))) = v
     ∧ (∀ k' s', (k', s') ≠ (k, s) →
          cellsOf k' s' (opts (container_of (set (cellsOption k s v) c σ))) = cellsOf k' s' (opts c))
     ∧ (∀ k' s',
          percentOf k' s' (opts (container_of (set (cellsOption k s v) c σ)))
          = percentOf k' s' (opts c)))
  ∧ (¬ (0 ≤ v ∧ percentOf k s (opts c) ≤ 0) →
       ∃ e, set (cellsOption k s v) c σ = (c, σ, Some e)).
Proof.
  split.
  - intros [Hv Hp].
    destruct k, s; simpl in *; zcases; try lia;
      (split_and!; [done | done | done | done | unfold sameButSpacing; simpl; by destruct (opts c) | done
                   | intros [] [] ?; simpl; congruence | intros [] []; reflexivity]).
  - intros Hno. destruct k, s; simpl in *; zcases; try lia; by eexists.
Qed.

(** X2. A setter of a side as a percentage (MarginTopPercent, ...,
    PaddingLeftPercent) succeeds exactly when its value is between 0 and
    100 and the cells stored for its own side are not greater than zero.
    Then it stores the value in the percentage of its own side and changes
    nothing else.  Otherwise it returns an error and leaves the container
    as it was. *)
Theorem percent_setter_spec (k : spacing) (s : side) (v : Z) (c : Container) (σ : store) :
  (0 ≤ v ≤ 100 ∧ cellsOf k s (opts c) ≤ 0 →
     error_of (set (percentOption k s v) c σ) = None
     ∧ store_of (set (percentOption k s v) c σ) = σ
     ∧ first (container_of (set (percentOption k s v) c σ)) = first c
     ∧ second (container_of (set (percentOption k s v) c σ)) = second c
     ∧ sameButSpacing (opts c) (opts (container_of (set (percentOption k s v) c σ)))
     ∧ percentOf k s (opts (container_of (set (percentOption k s v) c σ))) = v
     ∧ (∀ k' s', (k', s') ≠ (k, s) →
          percentOf k' s' (opts (container_of (set (percentOption k s v) c σ)))
          = percentOf k' s' (opts c))
     ∧ (∀ k' s',
          cellsOf k' s' (opts (container_of (set (percentOption k s v) c σ)))
          = cellsOf k' s' (opts c)))
  ∧ (¬ (0 ≤ v ≤ 100 ∧ cellsOf k s (opts c) ≤ 0) →
       ∃ e, set (percentOption k s v) c σ = (c, σ, Some e)).
Proof.
  split.
  - intros [Hv Hp].
    destruct k, s; simpl in *; zcases; try lia; simpl;
      (split_and!; [done | done | done | done | unfold sameButSpacing; simpl; by destruct (opts c) | done
                   | intros [] [] ?; simpl; congruence | intros [] []; reflexivity]).
  - intros Hno. destruct k, s; simpl in *; zcases; simpl; try lia; by eexists.
Qed.

(** ** Ranges that every container keeps *)

Lemma setSplit_keeps (so : SplitOption) (o : options) :
  margin (setSplit so o).1 = margin o ∧ padding (setSplit so o).1 = padding o
  ∧ keyFocusGroups (setSplit so o).1 = keyFocusGroups o ∧ id (setSplit so o).1 = id o.
Proof. destruct so; simpl; repeat case_match; done. Qed.

Lemma setSplits_keeps (sopts : list SplitOption) (o : options) :
  margin (setSplits sopts o).1 = margin o ∧ padding (setSplits sopts o).1 = padding o
  ∧ keyFocusGroups (setSplits sopts o).1 = keyFocusGroups o ∧ id (setSplits sopts o).1 = id o.
Proof.
  revert o. induction sopts as [|so sopts IH]; intros o; simpl; [done |].
  pose proof (setSplit_keeps so o) as (Hm & Hp & Hk & Hi).
  destruct (setSplit so o) as [o1 [e|]]; simpl in *; [done |].
  destruct (IH o1) as (Hm' & Hp' & Hk' & Hi'). split_and!; congruence.
Qed.

Lemma spacingOK_same (o o' : options) :
  margin o' = margin o → padding o' = padding o → spacingOK o → spacingOK o'.
Proof.
  intros Hm Hp Hq k s. specialize (Hq k s).
  by destruct k, s; simpl in *; rewrite ?Hm, ?Hp.
Qed.

(** The cases of an option that is not a split, with the integer
    comparisons decided. *)
Ltac local_cases o :=
  destruct o; try discriminate; unfold container_of; simpl; unfold updateGlobal;
  zcases; simpl; repeat case_match; simpl.

Lemma spacingOK_local (o : Option) (c : Container) (σ : store) :
  isSplit o = false → spacingOK (opts c) → spacingOK (opts (container_of (set o c σ))).
Proof.
  intros Hs Hq.
  pose proof (Hq Margin Top). pose proof (Hq Margin Right).
  pose proof (Hq Margin Bottom). pose proof (Hq Margin Left).
  pose proof (Hq Padding Top). pose proof (Hq Padding Right).
  pose proof (Hq Padding Bottom). pose proof (Hq Padding Left).
  local_cases o; try exact Hq;
    intros [] []; unfold sideOK in *; simpl in *; lia.
Qed.

Lemma spacingOK_child (p : options) (σ : store) : spacingOK (newOptions (Some p) σ).1.
Proof. intros [] []; unfold sideOK; simpl; lia. Qed.

Lemma spacingOK_split (st : splitType) (sopts : list SplitOption) (o : options) :
  spacingOK o → spacingOK (setSplits sopts (with_widget None (with_split st o))).1.
Proof.
  destruct (setSplits_keeps sopts (with_widget None (with_split st o))) as (Hm & Hp & _).
  by apply spacingOK_same.
Qed.

Lemma applyOptions_spacingOK (os : list Option) (c : Container) (σ : store) :
  Forall (λ n, spacingOK (opts n)) (nodes c) →
  Forall (λ n, spacingOK (opts n)) (nodes (container_of (applyOptions set c os σ))).
Proof.
  apply (applyOptions_allQ spacingOK).
  - intros p σ' _. apply spacingOK_child.
  - apply spacingOK_local.
  - apply spacingOK_split.
Qed.

Lemma newRoot_spacingOK (σ : store) : Forall (λ n, spacingOK (opts n)) (nodes (newRoot σ).1).
Proof.
  unfold newRoot. simpl. constructor; [| constructor].
  intros [] []; unfold sideOK; simpl; lia.
Qed.

(** X3. In every container of a tree, each side of the margin and of the
    padding keeps cells that are not negative, a percentage between 0 and
    100, and at most one of the two greater than zero.  This holds of a new
    container and is kept by every list of options, nested splits
    included, whether the application succeeds or fails. *)
Theorem spacing_stays_well_configured :
  (∀ σ, Forall (λ n, spacingOK (opts n)) (nodes (newRoot σ).1))
  ∧ (∀ c σ os,
       Forall (λ n, spacingOK (opts n)) (nodes c) →
       Forall (λ n, spacingOK (opts n)) (nodes (container_of (applyOptions set c os σ)))).
Proof.
  split; [apply newRoot_spacingOK |]. intros c σ os. apply applyOptions_spacingOK.
Qed.

Section apply_range.
Context {E : Type}.
Variable Shrink : image.Rectangle → Z → Z → Z → Z → image.Rectangle * option E.
Variable ShrinkPercent : image.Rectangle → Z → Z → Z → Z → image.Rectangle * option E.

(** X4. Whatever options are applied to a new container, for each
    container of the resulting tree margin.apply and padding.apply either
    return the area as it is, or call area.Shrink with four values that
    are not negative, or call area.ShrinkPercent with four values between
    0 and 100: the helpers never receive a value out of their range. *)
Theorem apply_arguments_in_range (σ : store) (os : list Option) (n : Container)
    (ar : image.Rectangle) :
  n ∈ nodes (container_of (applyOptions set (newRoot σ).1 os (newRoot σ).2)) →
  (margin.apply Shrink ShrinkPercent (margin (opts n)) ar = (ar, None)
   ∨ (∃ t r b l, 0 ≤ t ∧ 0 ≤ r ∧ 0 ≤ b ∧ 0 ≤ l
        ∧ margin.apply Shrink ShrinkPercent (margin (opts n)) ar = Shrink ar t r b l)
   ∨ (∃ t r b l, 0 ≤ t ≤ 100 ∧ 0 ≤ r ≤ 100 ∧ 0 ≤ b ≤ 100 ∧ 0 ≤ l ≤ 100
        ∧ margin.apply Shrink ShrinkPercent (margin (opts n)) ar = ShrinkPercent ar t r b l))
  ∧ (padding.apply Shrink ShrinkPercent (padding (opts n)) ar = (ar, None)
     ∨ (∃ t r b l, 0 ≤ t ∧ 0 ≤ r ∧ 0 ≤ b ∧ 0 ≤ l
          ∧ padding.apply Shrink ShrinkPercent (padding (opts n)) ar = Shrink ar t r b l)
     ∨ (∃ t r b l, 0 ≤ t ≤ 100 ∧ 0 ≤ r ≤ 100 ∧ 0 ≤ b ≤ 100 ∧ 0 ≤ l ≤ 100
          ∧ padding.apply Shrink ShrinkPercent (padding (opts n)) ar = ShrinkPercent ar t r b l)).
Proof.
  intros Hn.
  pose proof (applyOptions_spacingOK os _ (newRoot σ).2 (newRoot_spacingOK σ)) as Hall.
  rewrite Forall_forall in Hall. specialize (Hall n Hn).
  pose proof (Hall Margin Top) as (? & ? & _). pose proof (Hall Margin Right) as (? & ? & _).
  pose proof (Hall Margin Bottom) as (? & ? & _). pose proof (Hall Margin Left) as (? & ? & _).
  pose proof (Hall Padding Top) as (? & ? & _). pose proof (Hall Padding Right) as (? & ? & _).
  pose proof (Hall Padding Bottom) as (? & ? & _). pose proof (Hall Padding Left) as (? & ? & _).
  simpl in *. split.
  - unfold margin.apply.
    destruct (negb (margin.topCells (margin (opts n)) =? 0) || _ || _ || _);
      [right; left; eexists _, _, _, _; split_and!; [.. | reflexivity]; lia |].
    destruct (negb (margin.topPerc (margin (opts n)) =? 0) || _ || _ || _);
      [right; right; eexists _, _, _, _; split_and!; [.. | reflexivity]; lia | by left].
  - unfold padding.apply.
    destruct (negb (padding.topCells (padding (opts n)) =? 0) || _ || _ || _);
      [right; left; eexists _, _, _, _; split_and!; [.. | reflexivity]; lia |].
    destruct (negb (padding.topPerc (padding (opts n)) =? 0) || _ || _ || _);
      [right; right; eexists _, _, _, _; split_and!; [.. | reflexivity]; lia | by left].
Qed.

End apply_range.

(** *** Split values *)

Lemma setSplit_values (so : SplitOption) (o : options) :
  (splitValuesOK o → splitValuesOK (setSplit so o).1)
  ∧ (0 ≤ splitFixed o → 0 ≤ splitFixed (setSplit so o).1)
  ∧ (splitReversed o = true → splitReversed (setSplit so o).1 = true).
Proof.
  unfold splitValuesOK, DefaultSplitFixed.
  destruct so; simpl; zcases; simpl; split_and!; try done; lia.
Qed.

Lemma setSplits_values (sopts : list SplitOption) (o : options) :
  (splitValuesOK o → splitValuesOK (setSplits sopts o).1)
  ∧ (0 ≤ splitFixed o → 0 ≤ splitFixed (setSplits sopts o).1)
  ∧ (splitReversed o = true → splitReversed (setSplits sopts o).1 = true).
Proof.
  revert o. induction sopts as [|so sopts IH]; intros o; simpl; [done |].
  pose proof (setSplit_values so o) as (H1 & H2 & H3).
  destruct (setSplit so o) as [o1 [e|]]; simpl in *; [done |].
  destruct (IH o1) as (H1' & H2' & H3'). split_and!; auto.
Qed.

Lemma splitValuesOK_local (o : Option) (c : Container) (σ : store) :
  isSplit o = false → splitValuesOK (opts c) → splitValuesOK (opts (container_of (set o c σ))).
Proof. intros Hs Hq. local_cases o; exact Hq. Qed.

Lemma applyOptions_splitValuesOK (os : list Option) (c : Container) (σ : store) :
  Forall (λ n, splitValuesOK (opts n)) (nodes c) →
  Forall (λ n, splitValuesOK (opts n)) (nodes (container_of (applyOptions set c os σ))).
Proof.
  apply (applyOptions_allQ splitValuesOK).
  - intros p σ' _. unfold splitValuesOK. simpl. unfold DefaultSplitPercent, DefaultSplitFixed. lia.
  - apply splitValuesOK_local.
  - intros st sopts o Hq. by apply setSplits_values.
Qed.

(** X5. In every container of a tree the split percentage is greater than
    0 and less than 100, and the fixed split value is the default -1 or
    not negative.  This holds of a new container and is kept by every list
    of options, whether the application succeeds or fails. *)
Theorem split_values_stay_in_range :
  (∀ σ, Forall (λ n, splitValuesOK (opts n)) (nodes (newRoot σ).1))
  ∧ (∀ c σ os,
       Forall (λ n, splitValuesOK (opts n)) (nodes c) →
       Forall (λ n, splitValuesOK (opts n)) (nodes (container_of (applyOptions set c os σ)))).
Proof.
  split; [| intros c σ os; apply applyOptions_splitValuesOK].
  intros σ. unfold newRoot. simpl. constructor; [| constructor].
  unfold splitValuesOK. simpl. unfold DefaultSplitPercent, DefaultSplitFixed. lia.
Qed.

Lemma sticky_local (o : Option) (c : Container) (σ : store) :
  isSplit o = false →
  splitFixed (opts (container_of (set o c σ))) = splitFixed (opts c)
  ∧ splitReversed (opts (container_of (set o c σ))) = splitReversed (opts c)
  ∧ splitPercent (opts (container_of (set o c σ))) = splitPercent (opts c)
  ∧ (id (opts c) ≠ "" → id (opts (container_of (set o c σ))) ≠ "").
Proof.
  intros Hs. local_cases o; split_and!; try done.
  intros _. by apply String.eqb_neq.
Qed.

(** X6. No option undoes three settings of a container: a fixed split
    value that is set stays set, a reversed split stays reversed, and an
    identifier that is not empty stays not empty.  So when a container
    whose fixed split value is set is split again with SplitPercent(p), p
    accepted and other than 50, validation of the tree fails. *)
Theorem split_settings_are_sticky (c : Container) (σ : store) :
  (∀ o, (0 ≤ splitFixed (opts c) → 0 ≤ splitFixed (opts (container_of (set o c σ))))
        ∧ (splitReversed (opts c) = true →
             splitReversed (opts (container_of (set o c σ))) = true)
        ∧ (id (opts c) ≠ "" → id (opts (container_of (set o c σ))) ≠ ""))
  ∧ (∀ l r p, 0 ≤ splitFixed (opts c) → 0 < p < 100 → p ≠ DefaultSplitPercent →
       (∃ e, validateOptions (container_of (set (SplitVertical l r [SplitPercent p]) c σ)) = Some e)
       ∧ (∃ e, validateOptions (container_of (set (SplitHorizontal l r [SplitPercent p]) c σ))
               = Some e)).
Proof.
  assert (Hsplit : ∀ st l r sopts,
            (0 ≤ splitFixed (opts c) →
               0 ≤ splitFixed (opts (container_of (splitBody st l r sopts c σ))))
            ∧ (splitReversed (opts c) = true →
                 splitReversed (opts (container_of (splitBody st l r sopts c σ))) = true)
            ∧ (id (opts c) ≠ "" → id (opts (container_of (splitBody st l r sopts c σ))) ≠ "")).
  { intros st l r sopts. rewrite split_opts.
    destruct (setSplits_values sopts (with_widget None (with_split st (opts c)))) as (_ & H2 & H3).
    destruct (setSplits_keeps sopts (with_widget None (with_split st (opts c)))) as (_ & _ & _ & Hi).
    split_and!; [exact H2 | exact H3 | by rewrite Hi]. }
  split.
  - intros o. destruct (isSplit o) eqn:Hs.
    + destruct o; try discriminate.
      * rewrite (proj1 (set_split l r sopts c σ)). apply Hsplit.
      * rewrite (proj2 (set_split t b sopts c σ)). apply Hsplit.
    + destruct (sticky_local o c σ Hs) as (-> & -> & _ & Hi). by split_and!.
  - intros l r p Hf Hp Hne.
    assert (Hroot : ∀ st,
              splitFixed (opts (container_of (splitBody st l r [SplitPercent p] c σ)))
                = splitFixed (opts c)
              ∧ splitPercent (opts (container_of (splitBody st l r [SplitPercent p] c σ))) = p).
    { intros st. rewrite split_opts. simpl. zcases; try lia. done. }
    rewrite (proj1 (set_split l r _ c σ)), (proj2 (set_split l r _ c σ)).
    split.
    + destruct (Hroot splitTypeVertical) as [Hf' Hp'].
      eapply validateOptions_split_conflict.
      * rewrite nodes_unfold. apply list_elem_of_here.
      * by rewrite Hf'.
      * by rewrite Hp'.
    + destruct (Hroot splitTypeHorizontal) as [Hf' Hp'].
      eapply validateOptions_split_conflict.
      * rewrite nodes_unfold. apply list_elem_of_here.
      * by rewrite Hf'.
      * by rewrite Hp'.
Qed.

(** *** Focus groups of a container *)

Lemma appendKeyFocusGroups_ok (groups cur : list FocusGroup) :
  Forall (λ g, 0 ≤ g) groups → appendKeyFocusGroups groups cur = (cur ++ groups, None).
Proof.
  revert cur. induction groups as [|g groups IH]; intros cur Hg; simpl.
  - by rewrite app_nil_r.
  - apply Forall_cons_1 in Hg as [Hg Hrest]. destruct (Z.ltb_spec g 0); [lia |].
    rewrite IH by done. by rewrite <- app_assoc.
Qed.

Lemma appendKeyFocusGroups_negative (pre post cur : list FocusGroup) (g : FocusGroup) :
  Forall (λ g, 0 ≤ g) pre → g < 0 →
  appendKeyFocusGroups (pre ++ g :: post) cur = (cur ++ pre, Some (errInvalidKeyFocusGroups g)).
Proof.
  revert cur. induction pre as [|x pre IH]; intros cur Hpre Hg; simpl.
  - destruct (Z.ltb_spec g 0); [| lia]. by rewrite app_nil_r.
  - apply Forall_cons_1 in Hpre as [Hx Hpre]. destruct (Z.ltb_spec x 0); [lia |].
    rewrite IH by done. by rewrite <- app_assoc.
Qed.

Lemma appendKeyFocusGroups_nonneg (groups cur : list FocusGroup) :
  Forall (λ g, 0 ≤ g) cur → Forall (λ g, 0 ≤ g) (appendKeyFocusGroups groups cur).1.
Proof.
  revert cur. induction groups as [|g groups IH]; intros cur Hcur; simpl; [done |].
  destruct (Z.ltb_spec g 0); [done |]. apply IH. apply Forall_app. split; [done |].
  by constructor.
Qed.

(** X7. KeyFocusGroups with no group empties the list of focus groups of
    the container.  With groups that are all non-negative it appends them,
    in order, to the groups the container already has; it does not replace
    them.  With a negative group it returns the error for that group after
    having appended the groups before it. *)
Theorem keyFocusGroups_appends (c : Container) (σ : store) :
  set (KeyFocusGroups []) c σ = (with_opts (with_keyFocusGroups [] (opts c)) c, σ, None)
  ∧ (∀ g groups, Forall (λ g, 0 ≤ g) (g :: groups) →
       set (KeyFocusGroups (g :: groups)) c σ
       = (with_opts (with_keyFocusGroups (keyFocusGroups (opts c) ++ g :: groups) (opts c)) c,
          σ, None))
  ∧ (∀ pre g post, Forall (λ g, 0 ≤ g) pre → g < 0 →
       set (KeyFocusGroups (pre ++ g :: post)) c σ
       = (with_opts (with_keyFocusGroups (keyFocusGroups (opts c) ++ pre) (opts c)) c,
          σ, Some (errInvalidKeyFocusGroups g))).
Proof.
  split; [done |]. split.
  - intros g groups Hg. cbn [set]. by rewrite appendKeyFocusGroups_ok.
  - intros pre g post Hpre Hg. cbn [set].
    rewrite appendKeyFocusGroups_negative by done. by destruct pre.
Qed.

Lemma groupsOK_local (o : Option) (c : Container) (σ : store) :
  isSplit o = false → groupsOK (opts c) → groupsOK (opts (container_of (set o c σ))).
Proof.
  intros Hs Hq. unfold groupsOK in *.
  destruct o; try discriminate;
    try (unfold container_of; simpl; unfold updateGlobal; zcases; simpl; repeat case_match;
         simpl; exact Hq).
  unfold container_of. cbn [set].
  pose proof (appendKeyFocusGroups_nonneg groups
                (match groups with [] => [] | _ => keyFocusGroups (opts c) end)) as Happ.
  destruct (appendKeyFocusGroups groups _) as [cur' err]. simpl in *.
  apply Happ. by destruct groups.
Qed.

Lemma applyOptions_groupsOK (os : list Option) (c : Container) (σ : store) :
  Forall (λ n, groupsOK (opts n)) (nodes c) →
  Forall (λ n, groupsOK (opts n)) (nodes (container_of (applyOptions set c os σ))).
Proof.
  apply (applyOptions_allQ groupsOK).
  - intros p σ' _. by constructor.
  - apply groupsOK_local.
  - intros st sopts o Hq. unfold groupsOK in *.
    destruct (setSplits_keeps sopts (with_widget None (with_split st o))) as (_ & _ & -> & _).
    exact Hq.
Qed.

(** X8. No container of a tree ever belongs to a negative focus group: this
    holds of a new container and is kept by every list of options, whether
    the application succeeds or fails.  Hence the group that firstMatching
    finds for such a container is never negative. *)
Theorem focus_groups_stay_non_negative :
  (∀ σ, Forall (λ n, groupsOK (opts n)) (nodes (newRoot σ).1))
  ∧ (∀ c σ os,
       Forall (λ n, groupsOK (opts n)) (nodes c) →
       Forall (λ n, groupsOK (opts n)) (nodes (container_of (applyOptions set c os σ))))
  ∧ (∀ o fg g, groupsOK o → firstMatching fg (keyFocusGroups o) = (true, g) → 0 ≤ g).
Proof.
  split; [| split; [intros c σ os; apply applyOptions_groupsOK |]].
  - intros σ. unfold newRoot. simpl. constructor; [| constructor]. by constructor.
  - intros o fg g Hq. unfold groupsOK in Hq.
    induction Hq as [|x xs Hx _ IH]; simpl; [done |].
    destruct (default false (fg !! x)); [by intros [= <-] | exact IH].
Qed.

(** ** The store of global options *)

Lemma newOptions_store (p : option options) (σ : store) :
  (newOptions p σ).2 = <[fresh (dom σ) := mkGlobalOptions None None ∅ ∅]> σ.
Proof. by destruct p. Qed.

Lemma fresh_lookup (σ : store) : σ !! fresh (dom σ) = None.
Proof. apply not_elem_of_dom. apply is_fresh. Qed.

Lemma storeExtends_refl (g : loc) (σ : store) : storeExtends g σ σ.
Proof. by intros l Hl. Qed.

Lemma storeExtends_trans (g : loc) (σ1 σ2 σ3 : store) :
  storeExtends g σ1 σ2 → storeExtends g σ2 σ3 → storeExtends g σ1 σ3.
Proof.
  intros H12 H23 l Hl. destruct (H12 l Hl) as [Hl2 Heq2]. destruct (H23 l Hl2) as [Hl3 Heq3].
  split; [done |]. intros Hne. by rewrite Heq3, Heq2.
Qed.

Lemma storeExtends_alloc (g : loc) (p : option options) (σ : store) :
  storeExtends g σ (newOptions p σ).2.
Proof.
  rewrite newOptions_store. intros l Hl.
  assert (fresh (dom σ) ≠ l).
  { intros <-. rewrite fresh_lookup in Hl. by destruct Hl. }
  by rewrite lookup_insert_ne.
Qed.

Lemma storeExtends_insert (g : loc) (gl : globalOptions) (σ : store) :
  storeExtends g σ (<[g := gl]> σ).
Proof.
  intros l Hl. split.
  - destruct (decide (g = l)) as [-> | Hne]; [rewrite lookup_insert_eq; by eexists |].
    by rewrite lookup_insert_ne.
  - intros Hne. by rewrite lookup_insert_ne.
Qed.

Lemma keyFocusGroupsNextLoop_extends (l : loc) (key : Key) (groups : list FocusGroup) (σ : store) :
  storeExtends l σ (keyFocusGroupsNextLoop l key groups σ).1.
Proof.
  revert σ. induction groups as [|g groups IH]; intros σ; simpl; [apply storeExtends_refl |].
  destruct (g <? 0); [apply storeExtends_refl |].
  destruct (σ !! l) as [gl|]; [| apply storeExtends_refl].
  destruct (keyFocusGroupsPrevious gl !! key); [apply storeExtends_refl |].
  eapply storeExtends_trans; [apply storeExtends_insert | apply IH].
Qed.

Lemma keyFocusGroupsPreviousLoop_extends (l : loc) (key : Key) (groups : list FocusGroup)
    (σ : store) :
  storeExtends l σ (keyFocusGroupsPreviousLoop l key groups σ).1.
Proof.
  revert σ. induction groups as [|g groups IH]; intros σ; simpl; [apply storeExtends_refl |].
  destruct (g <? 0); [apply storeExtends_refl |].
  destruct (σ !! l) as [gl|]; [| apply storeExtends_refl].
  destruct (keyFocusGroupsNext gl !! key); [apply storeExtends_refl |].
  eapply storeExtends_trans; [apply storeExtends_insert | apply IH].
Qed.

Lemma storeExtends_local (o : Option) (c : Container) (σ : store) :
  isSplit o = false → storeExtends (global (opts c)) σ (store_of (set o c σ)).
Proof.
  intros Hs.
  destruct o; try discriminate;
    try (unfold store_of; simpl; zcases; simpl; repeat case_match; simpl;
         apply storeExtends_refl).
  - unfold store_of. simpl. unfold updateGlobal.
    destruct (σ !! global (opts c)); [apply storeExtends_insert | apply storeExtends_refl].
  - unfold store_of. simpl. unfold updateGlobal.
    destruct (σ !! global (opts c)); [apply storeExtends_insert | apply storeExtends_refl].
  - unfold store_of. cbn [set].
    pose proof (keyFocusGroupsNextLoop_extends (global (opts c)) key groups σ) as Hl.
    by destruct (keyFocusGroupsNextLoop (global (opts c)) key groups σ).
  - unfold store_of. cbn [set].
    pose proof (keyFocusGroupsPreviousLoop_extends (global (opts c)) key groups σ) as Hl.
    by destruct (keyFocusGroupsPreviousLoop (global (opts c)) key groups σ).
Qed.

Lemma applyOptions_storeExtends (os : list Option) (c : Container) (σ : store) :
  storeExtends (global (opts c)) σ (store_of (applyOptions set c os σ)).
Proof.
  apply (applyOptions_R storeExtends storeExtends_refl storeExtends_trans).
  apply Forall_forall. intros o _.
  apply (set_R storeExtends storeExtends_refl storeExtends_trans storeExtends_alloc
           storeExtends_local).
Qed.

(** X9. The global options of a new root are a new record, at a location
    that the store did not bind, with no key and two empty mappings.
    Applying options to a container never removes a record from the store
    and never changes a record other than the one the container points
    to: the global options of other trees are out of reach.  In
    particular the pointer of the container stays valid. *)
Theorem global_options_of_other_trees_untouched (c : Container) (σ : store) (os : list Option) :
  (σ !! global (opts (newRoot σ).1) = None
   ∧ globalOf (newRoot σ).1 (newRoot σ).2 = Some (mkGlobalOptions None None ∅ ∅)
   ∧ storeExtends (global (opts (newRoot σ).1)) σ (newRoot σ).2)
  ∧ storeExtends (global (opts c)) σ (store_of (applyOptions set c os σ))
  ∧ (is_Some (globalOf c σ) →
       is_Some (globalOf (container_of (applyOptions set c os σ))
                  (store_of (applyOptions set c os σ)))).
Proof.
  split; [| split].
  - unfold newRoot, globalOf. simpl. split; [apply fresh_lookup |].
    split; [by rewrite lookup_insert_eq |]. apply (storeExtends_alloc _ None).
  - apply applyOptions_storeExtends.
  - unfold globalOf. intros Hsome.
    assert (Hg : global (opts (container_of (applyOptions set c os σ))) = global (opts c)).
    { apply (applyOptions_preserves set (λ c', global (opts c') = global (opts c))); [| done].
      apply Forall_forall. intros o _ c1 σ1 <-. apply set_keeps_global. }
    rewrite Hg. by apply applyOptions_storeExtends.
Qed.

Lemma options_write_container_or_store_aux (o : Option) (c : Container) (σ : store) :
  isSplit o = false →
  (isKeyOption o = true → container_of (set o c σ) = c)
  ∧ (isKeyOption o = false →
       store_of (set o c σ) = σ ∧ error_of (set o c σ) ≠ Some panicNilDereference).
Proof.
  intros Hs. split; intros Hk.
  - destruct o; try discriminate; unfold container_of; cbn [set]; unfold updateGlobal.
    + by destruct (σ !! global (opts c)).
    + by destruct (σ !! global (opts c)).
    + by destruct (keyFocusGroupsNextLoop (global (opts c)) key groups σ).
    + by destruct (keyFocusGroupsPreviousLoop (global (opts c)) key groups σ).
  - destruct o; try discriminate;
      try (unfold store_of, error_of; simpl; zcases; simpl; repeat case_match; by simpl).
    unfold store_of, error_of. cbn [set].
    destruct (appendKeyFocusGroups groups _) as [cur' err] eqn:Happ. simpl. split; [done |].
    intros ->. clear Hs Hk.
    revert Happ. generalize (match groups with [] => [] | _ :: _ => keyFocusGroups (opts c) end).
    induction groups as [|g groups IH]; intros cur; simpl; [done |].
    destruct (g <? 0); [done | apply IH].
Qed.

(** X10. The options other than the splits fall in two groups.  The four
    key options (KeyFocusNext, KeyFocusPrevious, KeyFocusGroupsNext,
    KeyFocusGroupsPrevious) leave the container as it is and write only
    the store.  All the others leave the store as it is, and never
    dereference the pointer to the global options. *)
Theorem options_write_container_or_store (o : Option) (c : Container) (σ : store) :
  isSplit o = false →
  (isKeyOption o = true → container_of (set o c σ) = c)
  ∧ (isKeyOption o = false →
       store_of (set o c σ) = σ ∧ error_of (set o c σ) ≠ Some panicNilDereference).
Proof. apply options_write_container_or_store_aux. Qed.

(** *** The two mappings from keys to focus groups *)

Lemma globalOK_empty : globalOK (mkGlobalOptions None None ∅ ∅).
Proof.
  split_and!; simpl.
  - intros key [fg Hfg]. by rewrite lookup_empty in Hfg.
  - intros key fg Hfg. by rewrite lookup_empty in Hfg.
  - intros key fg Hfg. by rewrite lookup_empty in Hfg.
Qed.

Lemma groupSetOK_insert (fg : gmap Z bool) (g : FocusGroup) :
  0 ≤ g → (∀ x v, fg !! x = Some v → v = true ∧ 0 ≤ x) → groupSetOK (<[g := true]> fg).
Proof.
  intros Hg Hfg. split; [apply insert_non_empty |].
  intros x v. destruct (decide (g = x)) as [<- | Hne].
  - rewrite lookup_insert_eq. by intros [= <-].
  - rewrite lookup_insert_ne by done. apply Hfg.
Qed.

Lemma groupSet_default (m : gmap Key (gmap Z bool)) (key : Key) :
  (∀ k fg, m !! k = Some fg → groupSetOK fg) →
  ∀ x v, default ∅ (m !! key) !! x = Some v → v = true ∧ 0 ≤ x.
Proof.
  intros Hm x v. destruct (m !! key) as [fg|] eqn:Hkey; simpl.
  - apply (Hm key fg Hkey).
  - by rewrite lookup_empty.
Qed.

Lemma storeOK_insert (l : loc) (gl : globalOptions) (σ : store) :
  storeOK σ → globalOK gl → storeOK (<[l := gl]> σ).
Proof.
  intros Hσ Hgl l' gl'. destruct (decide (l = l')) as [<- | Hne].
  - rewrite lookup_insert_eq. by intros [= <-].
  - rewrite lookup_insert_ne by done. apply Hσ.
Qed.

Lemma globalOK_next_step (gl : globalOptions) (key : Key) (g : FocusGroup) :
  globalOK gl → 0 ≤ g → keyFocusGroupsPrevious gl !! key = None →
  globalOK (with_keyFocusGroupsNext
              (<[key := <[g := true]> (default ∅ (keyFocusGroupsNext gl !! key))]>
                 (keyFocusGroupsNext gl)) gl).
Proof.
  intros (Hdis & Hnext & Hprev) Hg Hkey. split_and!; simpl.
  - intros k. destruct (decide (key = k)) as [<- | Hne]; [done |].
    rewrite lookup_insert_ne by done. apply Hdis.
  - intros k fg. destruct (decide (key = k)) as [<- | Hne].
    + rewrite lookup_insert_eq. intros [= <-].
      apply groupSetOK_insert; [done |]. by apply groupSet_default.
    + rewrite lookup_insert_ne by done. apply Hnext.
  - exact Hprev.
Qed.

Lemma globalOK_previous_step (gl : globalOptions) (key : Key) (g : FocusGroup) :
  globalOK gl → 0 ≤ g → keyFocusGroupsNext gl !! key = None →
  globalOK (with_keyFocusGroupsPrevious
              (<[key := <[g := true]> (default ∅ (keyFocusGroupsPrevious gl !! key))]>
                 (keyFocusGroupsPrevious gl)) gl).
Proof.
  intros (Hdis & Hnext & Hprev) Hg Hkey. split_and!; simpl.
  - intros k Hk. destruct (decide (key = k)) as [<- | Hne].
    + rewrite Hkey in Hk. by destruct Hk.
    + rewrite lookup_insert_ne by done. by apply Hdis.
  - exact Hnext.
  - intros k fg. destruct (decide (key = k)) as [<- | Hne].
    + rewrite lookup_insert_eq. intros [= <-].
      apply groupSetOK_insert; [done |]. by apply groupSet_default.
    + rewrite lookup_insert_ne by done. apply Hprev.
Qed.

Lemma keyFocusGroupsNextLoop_storeOK (l : loc) (key : Key) (groups : list FocusGroup) (σ : store) :
  storeOK σ → storeOK (keyFocusGroupsNextLoop l key groups σ).1.
Proof.
  revert σ. induction groups as [|g groups IH]; intros σ Hσ; simpl; [done |].
  destruct (Z.ltb_spec g 0); [done |].
  destruct (σ !! l) as [gl|] eqn:Hl; [| done].
  destruct (keyFocusGroupsPrevious gl !! key) eqn:Hkey; [done |].
  apply IH. apply storeOK_insert; [done |].
  apply globalOK_next_step; [by apply (Hσ l) | done | done].
Qed.

Lemma keyFocusGroupsPreviousLoop_storeOK (l : loc) (key : Key) (groups : list FocusGroup)
    (σ : store) :
  storeOK σ → storeOK (keyFocusGroupsPreviousLoop l key groups σ).1.
Proof.
  revert σ. induction groups as [|g groups IH]; intros σ Hσ; simpl; [done |].
  destruct (Z.ltb_spec g 0); [done |].
  destruct (σ !! l) as [gl|] eqn:Hl; [| done].
  destruct (keyFocusGroupsNext gl !! key) eqn:Hkey; [done |].
  apply IH. apply storeOK_insert; [done |].
  apply globalOK_previous_step; [by apply (Hσ l) | done | done].
Qed.

Lemma storeOK_local (o : Option) (c : Container) (σ : store) :
  isSplit o = false → storeOK σ → storeOK (store_of (set o c σ)).
Proof.
  intros Hs Hσ.
  destruct (isKeyOption o) eqn:Hk;
    [| by rewrite (proj1 (proj2 (options_write_container_or_store_aux o c σ Hs) Hk))].
  destruct o; try discriminate; unfold store_of; cbn [set]; unfold updateGlobal.
  - destruct (σ !! global (opts c)) as [gl|] eqn:Hgl; [| done]. simpl.
    apply storeOK_insert; [done |]. by destruct (Hσ _ _ Hgl) as (? & ? & ?).
  - destruct (σ !! global (opts c)) as [gl|] eqn:Hgl; [| done]. simpl.
    apply storeOK_insert; [done |]. by destruct (Hσ _ _ Hgl) as (? & ? & ?).
  - pose proof (keyFocusGroupsNextLoop_storeOK (global (opts c)) key groups σ Hσ).
    by destruct (keyFocusGroupsNextLoop (global (opts c)) key groups σ).
  - pose proof (keyFocusGroupsPreviousLoop_storeOK (global (opts c)) key groups σ Hσ).
    by destruct (keyFocusGroupsPreviousLoop (global (opts c)) key groups σ).
Qed.

Lemma applyOptions_storeOK (os : list Option) (c : Container) (σ : store) :
  storeOK σ → storeOK (store_of (applyOptions set c os σ)).
Proof.
  assert (Hrefl : ∀ (g : loc) (σ : store), storeOK σ → storeOK σ) by done.
  assert (Htrans : ∀ (g : loc) (σ1 σ2 σ3 : store),
            (storeOK σ1 → storeOK σ2) → (storeOK σ2 → storeOK σ3) → storeOK σ1 → storeOK σ3)
    by auto.
  assert (Halloc : ∀ (g : loc) p (σ : store), storeOK σ → storeOK (newOptions p σ).2).
  { intros g p σ' Hσ'. rewrite newOptions_store.
    apply storeOK_insert; [done | apply globalOK_empty]. }
  apply (applyOptions_R (λ _ σ σ', storeOK σ → storeOK σ') Hrefl Htrans).
  apply Forall_forall. intros o _.
  apply (set_R (λ _ σ σ', storeOK σ → storeOK σ') Hrefl Htrans Halloc storeOK_local).
Qed.

(** X11. In every record of global options, a key is in at most one of the
    two mappings (next and previous), and each set of groups mapped to a
    key is not empty, holds no negative group and maps each of its groups
    to true.  This holds of the empty store and of the store of a new
    root, and is kept by every list of options, whether the application
    succeeds or fails. *)
Theorem key_mappings_stay_consistent :
  storeOK ∅
  ∧ (∀ σ, storeOK σ → storeOK (newRoot σ).2)
  ∧ (∀ c σ os, storeOK σ → storeOK (store_of (applyOptions set c os σ))).
Proof.
  split; [| split].
  - intros l gl Hl. by rewrite lookup_empty in Hl.
  - intros σ Hσ. unfold newRoot. simpl.
    apply storeOK_insert; [done | apply globalOK_empty].
  - intros c σ os. apply applyOptions_storeOK.
Qed.

(** *** Registering the groups of a key *)

Lemma addGroups_lookup (fg : gmap Z bool) (groups : list FocusGroup) (x : FocusGroup) :
  addGroups fg groups !! x = if decide (x ∈ groups) then Some true else fg !! x.
Proof.
  revert fg. induction groups as [|g groups IH]; intros fg.
  - simpl. destruct (decide (x ∈ [])) as [Hx | _]; [by apply elem_of_nil in Hx | done].
  - change (addGroups fg (g :: groups)) with (addGroups (<[g := true]> fg) groups).
    rewrite IH.
    destruct (decide (x ∈ groups)) as [Hx | Hx].
    + rewrite decide_True; [done | by right].
    + destruct (decide (g = x)) as [<- | Hne].
      * rewrite lookup_insert_eq. rewrite decide_True; [done | by left].
      * rewrite lookup_insert_ne by done. rewrite decide_False; [done |].
        intros [-> | Hx']%elem_of_cons; done.
Qed.

Lemma keyFocusGroupsNextLoop_ok (l : loc) (key : Key) (groups : list FocusGroup) :
  ∀ g σ gl, σ !! l = Some gl → keyFocusGroupsPrevious gl !! key = None →
    Forall (λ x, 0 ≤ x) (g :: groups) →
    keyFocusGroupsNextLoop l key (g :: groups) σ
    = (<[l := with_keyFocusGroupsNext
               (<[key := addGroups (default ∅ (keyFocusGroupsNext gl !! key)) (g :: groups)]>
                  (keyFocusGroupsNext gl)) gl]> σ, None).
Proof.
  induction groups as [|g' groups IH]; intros g σ gl Hl Hkey Hall;
    apply Forall_cons_1 in Hall as [Hg Hall].
  - simpl. destruct (Z.ltb_spec g 0); [lia |]. by rewrite Hl, Hkey.
  - assert (Hstep : ∀ rest,
              keyFocusGroupsNextLoop l key (g :: rest) σ
              = keyFocusGroupsNextLoop l key rest
                  (<[l := with_keyFocusGroupsNext
                            (<[key := <[g := true]> (default ∅ (keyFocusGroupsNext gl !! key))]>
                               (keyFocusGroupsNext gl)) gl]> σ)).
    { intros rest. simpl. destruct (Z.ltb_spec g 0); [lia |]. by rewrite Hl, Hkey. }
    rewrite Hstep.
    rewrite (IH g' _ _ (lookup_insert_eq _ _ _)); [| done | done].
    simpl. rewrite lookup_insert_eq. simpl. rewrite !insert_insert_eq. by destruct gl.
Qed.

Lemma keyFocusGroupsPreviousLoop_ok (l : loc) (key : Key) (groups : list FocusGroup) :
  ∀ g σ gl, σ !! l = Some gl → keyFocusGroupsNext gl !! key = None →
    Forall (λ x, 0 ≤ x) (g :: groups) →
    keyFocusGroupsPreviousLoop l key (g :: groups) σ
    = (<[l := with_keyFocusGroupsPrevious
               (<[key := addGroups (default ∅ (keyFocusGroupsPrevious gl !! key)) (g :: groups)]>
                  (keyFocusGroupsPrevious gl)) gl]> σ, None).
Proof.
  induction groups as [|g' groups IH]; intros g σ gl Hl Hkey Hall;
    apply Forall_cons_1 in Hall as [Hg Hall].
  - simpl. destruct (Z.ltb_spec g 0); [lia |]. by rewrite Hl, Hkey.
  - assert (Hstep : ∀ rest,
              keyFocusGroupsPreviousLoop l key (g :: rest) σ
              = keyFocusGroupsPreviousLoop l key rest
                  (<[l := with_keyFocusGroupsPrevious
                            (<[key := <[g := true]> (default ∅ (keyFocusGroupsPrevious gl !! key))]>
                               (keyFocusGroupsPrevious gl)) gl]> σ)).
    { intros rest. simpl. destruct (Z.ltb_spec g 0); [lia |]. by rewrite Hl, Hkey. }
    rewrite Hstep.
    rewrite (IH g' _ _ (lookup_insert_eq _ _ _)); [| done | done].
    simpl. rewrite lookup_insert_eq. simpl. rewrite !insert_insert_eq. by destruct gl.
Qed.

(** X12. KeyFocusGroupsNext with no group does nothing and returns no
    error, whatever the mappings hold.  With groups that are all
    non-negative and a key that is not in the mapping of the previous
    direction, it succeeds and the only change is in the record of global
    options the container points to: the set mapped to the key in the
    mapping of the next direction gains the groups, on top of those it
    had.  KeyFocusGroupsPrevious does the same with the two mappings
    exchanged.  A group is in the new set exactly when it is one of the
    groups given or was in the set before. *)
Theorem key_focus_groups_register (key : Key) (c : Container) (σ : store) (gl : globalOptions) :
  globalOf c σ = Some gl →
  (set (KeyFocusGroupsNext key []) c σ = (c, σ, None)
   ∧ set (KeyFocusGroupsPrevious key []) c σ = (c, σ, None))
  ∧ (∀ g groups, Forall (λ x, 0 ≤ x) (g :: groups) →
       keyFocusGroupsPrevious gl !! key = None →
       set (KeyFocusGroupsNext key (g :: groups)) c σ
       = (c, <[global (opts c) := with_keyFocusGroupsNext
                 (<[key := addGroups (default ∅ (keyFocusGroupsNext gl !! key)) (g :: groups)]>
                    (keyFocusGroupsNext gl)) gl]> σ, None))
  ∧ (∀ g groups, Forall (λ x, 0 ≤ x) (g :: groups) →
       keyFocusGroupsNext gl !! key = None →
       set (KeyFocusGroupsPrevious key (g :: groups)) c σ
       = (c, <[global (opts c) := with_keyFocusGroupsPrevious
                 (<[key := addGroups (default ∅ (keyFocusGroupsPrevious gl !! key)) (g :: groups)]>
                    (keyFocusGroupsPrevious gl)) gl]> σ, None))
  ∧ (∀ fg groups x, inGroups (addGroups fg groups) x ↔ x ∈ groups ∨ inGroups fg x).
Proof.
  unfold globalOf. intros Hgl. split; [done |]. split; [| split].
  - intros g groups Hall Hkey. cbn [set].
    by rewrite (keyFocusGroupsNextLoop_ok _ key groups g σ gl Hgl Hkey Hall).
  - intros g groups Hall Hkey. cbn [set].
    by rewrite (keyFocusGroupsPreviousLoop_ok _ key groups g σ gl Hgl Hkey Hall).
  - intros fg groups x. unfold inGroups. rewrite addGroups_lookup.
    destruct (decide (x ∈ groups)) as [Hx | Hx]; split;
      [by left | done | by right | by intros [? | ?]].
Qed.

(** ** Validation *)

Lemma visitAll_error_cases (l : list Container) (seen : gmap string bool) (e : error) :
  (visitAll validateNode l seen).2 = Some e →
  (∃ ident, e = errDuplicateID ident) ∨ (∃ n, n ∈ l ∧ validateSplits n = Some e).
Proof.
  revert seen. induction l as [|a l IH]; intros seen; simpl; [done |].
  destruct (validateNode a seen) as [seen' [e'|]] eqn:Ha; simpl.
  - intros [= ->]. apply validateNode_error in Ha as [(-> & _) | Hsplit]; [left; by eexists |].
    right. exists a. split; [by left | done].
  - intros He. destruct (IH seen' He) as [Hdup | (n & Hn & Hsplit)]; [by left |].
    right. exists n. split; [by right | done].
Qed.

(** X13. Validation of a tree succeeds exactly when no two distinct
    containers carry the same non-empty identifier and no container has a
    fixed split value that is set together with a split percentage other
    than the default. *)
Theorem validateOptions_succeeds_iff (c : Container) :
  validateOptions c = None ↔
  (∀ i j n m, i ≠ j → nodes c !! i = Some n → nodes c !! j = Some m →
     id (opts n) ≠ "" → id (opts n) ≠ id (opts m))
  ∧ (∀ n, n ∈ nodes c →
       ¬ (0 ≤ splitFixed (opts n) ∧ splitPercent (opts n) ≠ DefaultSplitPercent)).
Proof.
  split.
  - intros Hok. split.
    + intros i j n m Hij Hi Hj Hid Heq.
      assert (∃ e, (visitAll validateNode (nodes c) ∅).2 = Some e) as [e He].
      { destruct (decide (i < j)%nat).
        - by apply (visitAll_duplicate_fails _ _ i j n m).
        - apply (visitAll_duplicate_fails _ _ j i m n); [lia | done | done | done | congruence]. }
      rewrite <- validateOptions_nodes in He. congruence.
    + intros n Hn [Hf Hp].
      destruct (validateOptions_split_conflict c n Hn Hf Hp) as [e He]. congruence.
  - intros [Hids Hsplits].
    destruct (validateOptions c) as [e|] eqn:Hv; [| done]. exfalso.
    rewrite validateOptions_nodes in Hv.
    destruct (visitAll_error_cases _ _ _ Hv) as [[ident ->] | (n & Hn & Hsplit)].
    + apply visitAll_duplicate_error in Hv as (Hid & j & m & Hj & Hm & [Hseen | Hcase]).
      * by rewrite lookup_empty in Hseen.
      * destruct Hcase as (i & n & Hi & Hn & Hnid).
        apply (Hids i j n m); [lia | done | done | congruence | congruence].
    + apply validateSplits_error in Hsplit as (Hf & Hp & _).
      apply (Hsplits n Hn). unfold DefaultSplitFixed in Hf. split; [lia | done].
Qed.

(** X14. validateIds never records the empty identifier and never forgets
    an identifier.  It accepts a non-empty identifier that the map does
    not hold and records it; it rejects, with the map unchanged, a
    non-empty identifier that the map holds.  So an identifier that was
    accepted is rejected by the next call with it. *)
Theorem validateIds_records_identifiers (c : Container) (seen : gmap string bool) :
  (id (opts c) = "" → validateIds c seen = (seen, None))
  ∧ (id (opts c) ≠ "" → seen !! id (opts c) = Some true →
       validateIds c seen = (seen, Some (errDuplicateID (id (opts c)))))
  ∧ (id (opts c) ≠ "" → seen !! id (opts c) ≠ Some true →
       validateIds c seen = (<[id (opts c) := true]> seen, None))
  ∧ (∀ x, seen !! x = Some true → (validateIds c seen).1 !! x = Some true)
  ∧ (∀ c', id (opts c) ≠ "" → id (opts c') = id (opts c) →
       (validateIds c seen).2 = None →
       (validateIds c' (validateIds c seen).1).2 = Some (errDuplicateID (id (opts c)))).
Proof.
  unfold validateIds. split_and!.
  - by intros ->.
  - intros Hid Hseen. apply String.eqb_neq in Hid. by rewrite Hid, Hseen.
  - intros Hid Hseen. apply String.eqb_neq in Hid. rewrite Hid.
    by destruct (seen !! id (opts c)) as [[|]|].
  - intros x Hx. destruct (String.eqb (id (opts c)) ""); [done |].
    destruct (default false (seen !! id (opts c))); [done |]. simpl.
    destruct (decide (id (opts c) = x)) as [<- | Hne];
      [by rewrite lookup_insert_eq | by rewrite lookup_insert_ne].
  - intros c' Hid Heq. rewrite Heq. apply String.eqb_neq in Hid. rewrite Hid.
    destruct (default false (seen !! id (opts c))); [done |]. simpl. intros _.
    by rewrite lookup_insert_eq.
Qed.

(** ** Split options *)




(** ** Names of the split types *)

(** X16. String names the two split types "splitTypeVertical" and
    "splitTypeHorizontal", two different names, and every other value of
    the integer type "splitTypeUnknown". *)
Theorem splitType_String_names (st : Z) :
  splitType_String (splitTypeValue splitTypeVertical) = "splitTypeVertical"
  ∧ splitType_String (splitTypeValue splitTypeHorizontal) = "splitTypeHorizontal"
  ∧ (splitType_String st = "splitTypeUnknown" ↔
       st ≠ splitTypeValue splitTypeVertical ∧ st ≠ splitTypeValue splitTypeHorizontal).
Proof.
  split; [done |]. split; [done |]. unfold splitType_String, splitTypeNames. simpl.
  destruct (decide (st = 0)) as [-> | H0]; [split; [done | lia] |].
  destruct (decide (st = 1)) as [-> | H1]; [split; [done | lia] |].
  rewrite lookup_insert_ne by done. by rewrite lookup_singleton_ne.
Qed.

(** ** Inherited colors *)

Lemma setSplits_keeps_inherited (sopts : list SplitOption) (o : options) :
  inherited (setSplits sopts o).1 = inherited o.
Proof.
  revert o. induction sopts as [|so sopts IH]; intros o; simpl; [done |].
  assert (Hso : inherited (setSplit so o).1 = inherited o)
    by (destruct so; simpl; repeat case_match; done).
  destruct (setSplit so o) as [o1 [e|]]; simpl in *; [done |]. by rewrite IH.
Qed.

(** X17. The inherited colors of a container (border, focused border,
    title, focused title) are changed by the four color options only:
    every other option, a split included, leaves them as they are,
    whether it succeeds or fails.  Each color option succeeds and leaves
    the three other colors as they are. *)
Theorem inherited_colors_change_by_color_options_only (o : Option) (c : Container) (σ : store) :
  (isColorOption o = false →
     inherited (opts (container_of (set o c σ))) = inherited (opts c))
  ∧ (isColorOption o = true →
       error_of (set o c σ) = None
       ∧ ((inherited.borderColor (inherited (opts (container_of (set o c σ))))
             = inherited.borderColor (inherited (opts c))
           ∨ ∃ color, o = BorderColor color)
          ∧ (inherited.focusedColor (inherited (opts (container_of (set o c σ))))
               = inherited.focusedColor (inherited (opts c))
             ∨ ∃ color, o = FocusedColor color)
          ∧ (inherited.titleColor (inherited (opts (container_of (set o c σ))))
               = inherited.titleColor (inherited (opts c))
             ∨ ∃ color, o = TitleColor color)
          ∧ (inherited.titleFocusedColor (inherited (opts (container_of (set o c σ))))
               = inherited.titleFocusedColor (inherited (opts c))
             ∨ ∃ color, o = TitleFocusedColor color))).
Proof.
  split.
  - intros Hc. destruct (isSplit o) eqn:Hs.
    + destruct o; try discriminate.
      * rewrite (proj1 (set_split l r sopts c σ)), split_opts.
        by rewrite setSplits_keeps_inherited.
      * rewrite (proj2 (set_split t b sopts c σ)), split_opts.
        by rewrite setSplits_keeps_inherited.
    + local_cases o; done.
  - intros Hc. destruct o; try discriminate; (split; [done |]); simpl;
      split_and!; first [by left | right; by eexists].
Qed.

End further_facts.

(** * The further facts at concrete containers *)

Section further_examples.
#[local] Existing Instance exampleExternals.

(** MarginTop(3) on a new container, and MarginTop(-1). *)
Lemma cells_setter_spec_witness :
  cellsOf Margin Top (opts (container_of (set (MarginTop 3) exampleRoot exampleStore))) = 3
  ∧ ∃ e, set (MarginTop (-1)) exampleRoot exampleStore = (exampleRoot, exampleStore, Some e).
Proof.
  split.
  - apply (proj1 (cells_setter_spec (H := exampleExternals) Margin Top 3 exampleRoot exampleStore)).
    split; [lia | vm_compute; discriminate].
  - apply (proj2 (cells_setter_spec (H := exampleExternals) Margin Top (-1) exampleRoot exampleStore)). lia.
Defined.

(** PaddingLeftPercent(40) on a new container, and PaddingLeftPercent(101). *)
Lemma percent_setter_spec_witness :
  percentOf Padding Left (opts (container_of (set (PaddingLeftPercent 40) exampleRoot exampleStore)))
    = 40
  ∧ ∃ e, set (PaddingLeftPercent 101) exampleRoot exampleStore
         = (exampleRoot, exampleStore, Some e).
Proof.
  split.
  - apply (proj1 (percent_setter_spec (H := exampleExternals) Padding Left 40 exampleRoot exampleStore)).
    split; [lia | vm_compute; discriminate].
  - apply (proj2 (percent_setter_spec (H := exampleExternals) Padding Left 101 exampleRoot exampleStore)). lia.
Defined.

(** A container with a margin, split with a padded first child. *)
Lemma spacing_stays_well_configured_witness :
  Forall (λ n, spacingOK (opts n))
    (nodes (container_of (applyOptions set exampleRoot
              [MarginTop 2; SplitVertical [PaddingLeftPercent 10; PaddingLeft 1] [] []]
              exampleStore))).
Proof.
  apply (proj2 spacing_stays_well_configured).
  apply (proj1 spacing_stays_well_configured ∅).
Defined.

(** The same container, with helpers that return the area they are given. *)
Lemma apply_arguments_in_range_witness :
  let c := container_of (applyOptions set (newRoot ∅).1
             [MarginTop 2; SplitVertical [PaddingLeftPercent 10; PaddingLeft 1] [] []]
             (newRoot ∅).2) in
  ∃ t r b l, 0 ≤ t ∧ 0 ≤ r ∧ 0 ≤ b ∧ 0 ≤ l
    ∧ margin.apply (E := unit) (λ ar _ _ _ _, (ar, None)) (λ ar _ _ _ _, (ar, None))
        (margin (opts c)) (image.mkRectangle (image.mkPoint 0 0) (image.mkPoint 10 10))
      = (λ ar _ _ _ _, (ar, None)) (image.mkRectangle (image.mkPoint 0 0) (image.mkPoint 10 10))
          t r b l.
Proof.
  intros c.
  destruct (apply_arguments_in_range (E := unit) (λ ar _ _ _ _, (ar, None))
              (λ ar _ _ _ _, (ar, None)) ∅
              [MarginTop 2; SplitVertical [PaddingLeftPercent 10; PaddingLeft 1] [] []] c
              (image.mkRectangle (image.mkPoint 0 0) (image.mkPoint 10 10))) as [Hm _].
  - rewrite nodes_unfold. apply list_elem_of_here.
  - exists 2, 0, 0, 0. split_and!; try lia. reflexivity.
Defined.

(** A split with SplitPercentFromEnd(30) and SplitFixed(4). *)
Lemma split_values_stay_in_range_witness :
  Forall (λ n, splitValuesOK (opts n))
    (nodes (container_of (applyOptions set exampleRoot
              [SplitHorizontal [] [] [SplitPercentFromEnd 30; SplitFixed 4; SplitFixed (-2)]]
              exampleStore))).
Proof.
  apply (proj2 split_values_stay_in_range).
  apply (proj1 split_values_stay_in_range ∅).
Defined.

(** A container split with SplitFixed(3) and split again with
    SplitPercent(30). *)
Lemma split_settings_are_sticky_witness :
  ∃ e, validateOptions
         (container_of (applyOptions set exampleRoot
            [SplitVertical [] [] [SplitFixed 3]; SplitVertical [] [] [SplitPercent 30]]
            exampleStore)) = Some e.
Proof.
  assert (Hne : 30 ≠ DefaultSplitPercent).
  { intros Heq. vm_compute in Heq. discriminate Heq. }
  exact (proj1 (proj2 (split_settings_are_sticky
                 (container_of (set (SplitVertical [] [] [SplitFixed 3]) exampleRoot exampleStore))
                 (store_of (set (SplitVertical [] [] [SplitFixed 3]) exampleRoot exampleStore)))
                 [] [] 30 ltac:(vm_compute; discriminate) ltac:(lia) Hne)).
Defined.

(** KeyFocusGroups(1, 2) twice, and KeyFocusGroups(1, -1, 2). *)
Lemma keyFocusGroups_appends_witness :
  keyFocusGroups (opts (container_of (applyOptions set exampleRoot
                    [KeyFocusGroups [1; 2]; KeyFocusGroups [1; 2]] exampleStore))) = [1; 2; 1; 2]
  ∧ set (KeyFocusGroups ([1] ++ -1 :: [2])) exampleRoot exampleStore
    = (with_opts (with_keyFocusGroups [1] (opts exampleRoot)) exampleRoot, exampleStore,
       Some (errInvalidKeyFocusGroups (-1))).
Proof.
  split.
  - cbn [applyOptions].
    rewrite (proj1 (proj2 (keyFocusGroups_appends (H := exampleExternals) exampleRoot exampleStore)) 1 [2]);
      [| repeat constructor; lia].
    rewrite (proj1 (proj2 (keyFocusGroups_appends (H := exampleExternals) _ exampleStore)) 1 [2]);
      [| repeat constructor; lia].
    reflexivity.
  - apply (proj2 (proj2 (keyFocusGroups_appends (H := exampleExternals) exampleRoot exampleStore)) [1] (-1) [2]);
      [repeat constructor; lia | lia].
Defined.

(** The groups 3 and 0, in a split container. *)
Lemma focus_groups_stay_non_negative_witness :
  Forall (λ n, groupsOK (opts n))
    (nodes (container_of (applyOptions set exampleRoot
              [KeyFocusGroups [3; 0]; SplitVertical [KeyFocusGroups [5; -1]] [] []]
              exampleStore))).
Proof.
  apply (proj1 (proj2 focus_groups_stay_non_negative)).
  apply (proj1 focus_groups_stay_non_negative ∅).
Defined.

(** A root whose options set keys, in a store that holds it. *)
Lemma global_options_of_other_trees_untouched_witness :
  is_Some (globalOf
    (container_of (applyOptions set exampleRoot [KeyFocusNext 9; KeyFocusGroupsNext 7 [1]]
                     exampleStore))
    (store_of (applyOptions set exampleRoot [KeyFocusNext 9; KeyFocusGroupsNext 7 [1]]
                 exampleStore))).
Proof.
  apply (proj2 (proj2 (global_options_of_other_trees_untouched (H := exampleExternals)
                         exampleRoot exampleStore _))).
  by eexists.
Defined.

(** KeyFocusNext leaves the container, Border leaves the store. *)
Lemma options_write_container_or_store_witness :
  container_of (set (KeyFocusNext 9) exampleRoot exampleStore) = exampleRoot
  ∧ store_of (set (Border 1) exampleRoot exampleStore) = exampleStore.
Proof.
  split.
  - apply (proj1 (options_write_container_or_store (H := exampleExternals)
                    (KeyFocusNext (H := exampleExternals) 9) exampleRoot exampleStore eq_refl)).
    reflexivity.
  - apply (proj2 (options_write_container_or_store (H := exampleExternals)
                    (Border (H := exampleExternals) 1) exampleRoot exampleStore eq_refl)).
    reflexivity.
Defined.

(** Keys given to both directions, from the empty store. *)
Lemma key_mappings_stay_consistent_witness :
  storeOK (store_of (applyOptions set exampleRoot
             [KeyFocusGroupsNext 7 [1; 2]; KeyFocusGroupsPrevious 8 [1]; KeyFocusGroupsPrevious 7 [3]]
             exampleStore)).
Proof.
  apply (proj2 (proj2 key_mappings_stay_consistent)).
  apply (proj1 (proj2 key_mappings_stay_consistent) ∅).
  apply (proj1 key_mappings_stay_consistent).
Defined.

(** Key 7 for the groups 1 and 2 on a new root. *)
Lemma key_focus_groups_register_witness :
  set (KeyFocusGroupsNext 7 [1; 2]) exampleRoot exampleStore
  = (exampleRoot,
     <[global (opts exampleRoot) :=
         mkGlobalOptions None None {[7 := addGroups ∅ [1; 2]]} ∅]> exampleStore,
     None).
Proof.
  assert (Hgl : globalOf exampleRoot exampleStore = Some (mkGlobalOptions None None ∅ ∅))
    by reflexivity.
  rewrite (proj1 (proj2 (key_focus_groups_register (H := exampleExternals) 7 exampleRoot exampleStore
                           _ Hgl)) 1 [2]);
    [reflexivity | repeat constructor; lia | reflexivity].
Defined.

(** A single new container passes validation. *)
Lemma validateOptions_succeeds_iff_witness : validateOptions exampleRoot = None.
Proof.
  apply (proj2 (validateOptions_succeeds_iff (H := exampleExternals) exampleRoot)). split.
  - intros [|i] [|j] n m Hij Hi Hj; try done; by destruct Hij.
  - intros n Hn [Hf _]. rewrite nodes_unfold in Hn. simpl in Hn.
    apply list_elem_of_singleton in Hn. subst n. vm_compute in Hf. by apply Hf.
Defined.

(** The identifier "a" is accepted once. *)
Lemma validateIds_records_identifiers_witness :
  let c := container_of (set (ID "a") exampleRoot exampleStore) in
  (validateIds c (validateIds c ∅).1).2 = Some (errDuplicateID "a").
Proof.
  intros c.
  apply (proj2 (proj2 (proj2 (proj2 (validateIds_records_identifiers (H := exampleExternals) c ∅)))) c).
  - intros Hid. vm_compute in Hid. discriminate Hid.
  - reflexivity.
  - reflexivity.
Defined.


(** A split keeps the border color of the container. *)
Lemma inherited_colors_change_by_color_options_only_witness :
  let c := container_of (set (BorderColor 3) exampleRoot exampleStore) in
  inherited (opts (container_of (set (SplitVertical [BorderColor 5] [] []) c exampleStore)))
  = inherited (opts c)
  ∧ inherited.borderColor (inherited (opts c)) = 3.
Proof.
  intros c. split; [| reflexivity].
  exact (proj1 (inherited_colors_change_by_color_options_only (H := exampleExternals)
                  (SplitVertical [BorderColor (H := exampleExternals) 5] [] []) c exampleStore)
           eq_refl).
Defined.

End further_examples.
